(** * Spongix local cache maintenance: the garbage collector of [gc.go]

    A shallow embedding of the LRU classifier ([chunkLRU]) and of one GC
    pass ([gcOnce]) of spongix, with the properties of the maintenance
    subsystem stated over it.

    Conventions of the embedding.
    - Go's [uint64] is a [Z] reduced modulo [2^64] after every operation
      and [int64] a [Z] reduced to the signed range; a conversion is
      written where the source has one.
    - [time.Time] is a [Z] (an instant); [t.Before(u)] is [t < u].
    - A run-time panic (index out of range) is [None].
    - [map[desync.ChunkID]struct{}] and [sync.Map] used as sets are
      [gset]s. *)

From Stdlib Require Import ZArith Lia Ascii.
From stdpp Require Import base gmap sets list strings sorting.
From Equations Require Import Equations.

Open Scope Z_scope.

(** ** Machine integers *)

Definition uint64 (z : Z) : Z := z mod 2 ^ 64.

Definition is_uint64 (z : Z) : Prop := 0 ≤ z < 2 ^ 64.

Definition int64 (z : Z) : Z := (z + 2 ^ 63) mod 2 ^ 64 - 2 ^ 63.

(** ** Data model *)

(** [desync.ChunkID] is [[32]byte]; a byte is an [N] below 256. *)
Abbreviation ChunkID := (list N).

(** [type chunkStat struct { id; size int64; mtime time.Time }] *)
Record chunkStat := mkStat {
  cs_id : ChunkID;
  cs_size : Z;
  cs_mtime : Z
}.

(** [type chunkLRU struct] *)
Record chunkLRU := mkLRU {
  live : list chunkStat;
  liveSize : Z;
  liveSizeMax : Z;
  dead : gset ChunkID;
  deadSize : Z
}.

Definition NewLRU (liveSizeMax : Z) : chunkLRU :=
  {| live := []; liveSize := 0; liveSizeMax := liveSizeMax;
     dead := ∅; deadSize := 0 |}.

Definition AddDead (l : chunkLRU) (stat : chunkStat) : chunkLRU :=
  {| live := live l; liveSize := liveSize l; liveSizeMax := liveSizeMax l;
     dead := {[ cs_id stat ]} ∪ dead l;
     deadSize := uint64 (deadSize l + uint64 (cs_size stat)) |}.

(** [sort.Search(n, f)]: the binary search of Go's standard library,
    [h := int(uint(i+j) >> 1)]. *)
Equations? search_loop (f : nat → bool) (i j : nat) : nat by wf (j - i)%nat lt :=
  search_loop f i j with decide (i < j)%nat => {
    | left _ with f (Nat.div2 (i + j)) => {
        | false => search_loop f (Nat.div2 (i + j) + 1) j
        | true => search_loop f i (Nat.div2 (i + j)) }
    | right _ => i }.
Proof.
  all: pose proof (Nat.div2_odd (i + j)) as Hd;
       destruct (Nat.odd (i + j)); simpl in Hd; lia.
Qed.

Definition Search (n : nat) (f : nat → bool) : nat := search_loop f 0 n.

(** [isOlder] of [Add]: [l.live[i].mtime.Before(stat.mtime)].  [Search]
    calls it below [len(l.live)] only. *)
Definition isOlder (l : chunkLRU) (stat : chunkStat) (i : nat) : bool :=
  match live l !! i with
  | Some c => bool_decide (cs_mtime c < cs_mtime stat)
  | None => false
  end.

(** [insertAt]: [append(l.live[:i+1], l.live[i:]...)] then [l.live[i] = v]. *)
Definition insertAt (l : chunkLRU) (i : nat) (v : chunkStat) : chunkLRU :=
  {| live := if decide (i = length (live l)) then live l ++ [v]
             else <[ i := v ]> (take (i + 1) (live l) ++ drop i (live l));
     liveSize := liveSize l; liveSizeMax := liveSizeMax l;
     dead := dead l; deadSize := deadSize l |}.

(** One iteration of the eviction loop of [Add]; [None] is the panic of
    [l.live[len(l.live)-1]] on an empty slice. *)
Definition evict1 (l : chunkLRU) : option chunkLRU :=
  match last (live l) with
  | None => None
  | Some die =>
      Some {| live := take (length (live l) - 1) (live l);
              liveSize := uint64 (liveSize l - uint64 (cs_size die));
              liveSizeMax := liveSizeMax l;
              dead := {[ cs_id die ]} ∪ dead l;
              deadSize := uint64 (deadSize l + uint64 (cs_size die)) |}
  end.

Definition inspect {A : Type} (x : A) : { y : A | x = y } := exist _ x eq_refl.

(** [for l.liveSize > l.liveSizeMax { ... }] *)
Equations? evict (l : chunkLRU) : option chunkLRU by wf (length (live l)) lt :=
  evict l with decide (liveSizeMax l < liveSize l) => {
    | right _ => Some l
    | left _ with inspect (evict1 l) => {
        | exist _ None _ => None
        | exist _ (Some l') He => evict l' } }.
Proof.
  clear evict. unfold evict1 in He.
  destruct (last (live l)) as [d|] eqn:Hl; [|discriminate].
  injection He as <-. simpl. rewrite length_take.
  destruct (live l); [discriminate|]. simpl. lia.
Qed.

Definition Add (l : chunkLRU) (stat : chunkStat) : option chunkLRU :=
  let i := Search (length (live l)) (isOlder l stat) in
  let l1 := insertAt l i stat in
  evict {| live := live l1;
           liveSize := uint64 (liveSize l1 + uint64 (cs_size stat));
           liveSizeMax := liveSizeMax l1;
           dead := dead l1; deadSize := deadSize l1 |}.

Definition IsDead (l : chunkLRU) (id : ChunkID) : bool :=
  bool_decide (id ∈ dead l).

Definition Dead (l : chunkLRU) : gset ChunkID := dead l.

(** ** Strings, paths and errors *)

Abbreviation chars := String.list_ascii_of_string.
Abbreviation of_chars := String.string_of_list_ascii.

(** [strings.HasPrefix(s, prefix)] *)
Definition HasPrefix (s prefix : string) : bool := String.prefix prefix s.

(** The loop of [filepath.Ext]: from the last byte backwards, stop at a
    path separator, return the suffix from the first dot met. *)
Fixpoint ext_scan (rs acc : list ascii) : list ascii :=
  match rs with
  | [] => []
  | c :: rs' =>
      if Ascii.eqb c "/"%char then []
      else if Ascii.eqb c "."%char then c :: acc
      else ext_scan rs' (c :: acc)
  end.

Definition Ext (path : string) : string :=
  of_chars (ext_scan (rev (chars path)) []).

(** [syscall.Errno], the values the walks can meet. *)
Inductive Errno := ENOENT | EACCES | EIO.

(** Go [error] values.  [ErrNotExist] is the sentinel [os.ErrNotExist];
    [PathError] is a [*fs.PathError], the error [os.Lstat], [os.Open] and
    [Readdirnames] return and [filepath.Walk] hands to its callback. *)
Inductive error :=
  | ErrNotExist
  | PathError (op path : string) (errno : Errno)
  | ErrString (msg : string)
  | WithMessage (msg : string) (cause : error).

(** [err == os.ErrNotExist]: equality of interface values, true only for
    the sentinel itself. *)
Definition is_ErrNotExist (err : error) : bool :=
  match err with ErrNotExist => true | _ => false end.

(** [os.IsNotExist(err)]: the error, unwrapped from a [PathError], is
    [ENOENT] or the sentinel. *)
Definition IsNotExist (err : error) : bool :=
  match err with
  | ErrNotExist => true
  | PathError _ _ ENOENT => true
  | _ => false
  end.

(** [fs.FileInfo] as returned by [os.Lstat]. *)
Record FileInfo := mkInfo {
  fi_Name : string;
  fi_Size : Z;
  fi_ModTime : Z;
  fi_IsDir : bool
}.

(** One call of [filepath.Walk] to its callback: [(path, info, err)] with
    [err] nil ([Visit]) or not ([VisitErr]; the callbacks of [gcOnce]
    never read [info] then). *)
Inductive WalkEvent :=
  | Visit (path : string) (info : FileInfo)
  | VisitErr (path : string) (err : error).

Definition ev_path (ev : WalkEvent) : string :=
  match ev with Visit p _ => p | VisitErr p _ => p end.

(** What a callback does to the walk: go on, stop it with an error, or
    panic. *)
Inductive Step (S : Type) :=
  | Continue (st : S)
  | Stop (err : error)
  | Panic.
Arguments Continue {S} st.
Arguments Stop {S} err.
Arguments Panic {S}.

(** [filepath.Walk] over the entries it enumerates.  The callbacks of
    [gcOnce] never return [filepath.SkipDir], so the walk is the sequence
    of callback calls, cut at the first one that returns an error. *)
Fixpoint Walk {S : Type} (fn : S → WalkEvent → Step S) (st : S)
    (evs : list WalkEvent) : Step S :=
  match evs with
  | [] => Continue st
  | ev :: evs' =>
      match fn st ev with
      | Continue st' => Walk fn st' evs'
      | Stop err => Stop err
      | Panic => Panic
      end
  end.

(** ** The desync library: chunk ids, the local chunk store's names *)

Module desync.

Definition CompressedChunkExt : string := ".cacnk".

Definition hexval (c : ascii) : option N :=
  let n := Ascii.N_of_ascii c in
  if bool_decide (48 ≤ n ≤ 57)%N then Some (n - 48)%N
  else if bool_decide (97 ≤ n ≤ 102)%N then Some (n - 87)%N
  else if bool_decide (65 ≤ n ≤ 70)%N then Some (n - 55)%N
  else None.

(** [hex.DecodeString] *)
Fixpoint hexDecode (cs : list ascii) : option (list N) :=
  match cs with
  | [] => Some []
  | a :: b :: cs' =>
      match hexval a, hexval b, hexDecode cs' with
      | Some x, Some y, Some r => Some ((16 * x + y)%N :: r)
      | _, _, _ => None
      end
  | [_] => None
  end.

(** [ChunkIDFromString]: 64 hexadecimal digits. *)
Definition ChunkIDFromString (s : string) : error + ChunkID :=
  match hexDecode (chars s) with
  | None => inl (ErrString "failed to decode chunk id string")
  | Some b =>
      if decide (length b = 32%nat) then inr b
      else inl (ErrString "chunk id string not of right size")
  end.

Definition hextable : list ascii := chars "0123456789abcdef".

(** [hextable[n & 0x0f]] *)
Definition hexdigit (n : N) : ascii :=
  default "0"%char (hextable !! N.to_nat (n mod 16)).

(** [ChunkID.String]: [hex.EncodeToString], which writes
    [hextable[v >> 4]] and [hextable[v & 0x0f]] for every byte [v]. *)
Fixpoint hexEncode (b : list N) : list ascii :=
  match b with
  | [] => []
  | v :: b' => hexdigit (v / 16) :: hexdigit v :: hexEncode b'
  end.

Definition String (id : ChunkID) : string := of_chars (hexEncode id).

(** The file name of a chunk in a [LocalStore]: [id.String()] and the
    extension, in the directory named by the first four digits. *)
Definition fileName (id : ChunkID) : string :=
  String id +:+ CompressedChunkExt.

Definition nameFromID (base : string) (id : ChunkID) : string :=
  base +:+ "/" +:+ String.substring 0 4 (String id) +:+ "/" +:+ fileName id.

(** [IndexChunk] and [Index]; [Index.Length]. *)
Record IndexChunk := mkIndexChunk {
  ic_ID : ChunkID;
  ic_Start : Z;
  ic_Size : Z
}.

Record Index := mkIndex { Chunks : list IndexChunk }.

Definition Length (i : Index) : Z :=
  match last (Chunks i) with
  | None => 0
  | Some c => int64 (uint64 (ic_Start c + ic_Size c))
  end.

End desync.

(** ** The GC pass *)

Import desync.

(** [maxCacheDirPortion = 0xffff * 4096] *)
Definition maxCacheDirPortion : Z := 65535 * 4096.

(** The chunk store as [gcOnce] uses it: [store.GetChunk(id)] returns the
    chunk's bytes or an error. *)
Abbreviation Store := (ChunkID → error + list N).

(** What [nar.Reader.Next] returns, call after call, on the stream that
    [newAssembler(store, idx)] produces: an entry, [io.EOF] or an error. *)
Inductive NarStream :=
  | NarEntry (rest : NarStream)
  | NarEOF
  | NarError (err : error).

(** The receiver of [gcOnce] and the world it runs in.
    - [CacheSize]: the configured size in GiB, a [uint64].
    - [storeBase], [storeFiles], [GetChunk]: [proxy.localStore]; its base
      directory, what [filepath.Walk(store.Base)] enumerates, and
      [store.GetChunk].
    - [indexPath], [indexFiles], [GetIndex]: [proxy.localIndex]; its
      directory, what [filepath.Walk(indices.Path)] enumerates, and
      [indices.GetIndex].
    - [narReader]: [nar.NewReader(newAssembler(store, idx))] with the
      results of the reader's [Next]; [assembleNarinfo]: the function of
      that name.  Both read through the chunk store they are given. *)
Record Proxy := mkProxy {
  CacheSize : Z;
  storeBase : string;
  storeFiles : list WalkEvent;
  GetChunk : Store;
  indexPath : string;
  indexFiles : list WalkEvent;
  GetIndex : string → error + Index;
  narReader : Store → Index → error + NarStream;
  assembleNarinfo : Store → Index → option error
}.

(** The loop of [checkNarContents] over the reader's results. *)
Fixpoint narLoop (rd : NarStream) (none : bool) : option error :=
  match rd with
  | NarEntry rest => narLoop rest false
  | NarEOF => if none then Some (ErrString "no contents in NAR") else None
  | NarError err => Some err
  end.

(** [checkNarContents]: [None] is a nil error. *)
Definition checkNarContents (proxy : Proxy) (idx : Index) : option error :=
  match narReader proxy (GetChunk proxy) idx with
  | inl err => Some err
  | inr narRd => narLoop narRd true
  end.

(** State of the chunk walk: the classifier and [chunkDirs]. *)
Record StoreWalk := mkStoreWalk {
  sw_lru : chunkLRU;
  sw_chunkDirs : Z
}.

(** The callback of [filepath.Walk(store.Base, ...)]. *)
Definition walkStoreFn (proxy : Proxy) (st : StoreWalk) (ev : WalkEvent)
    : Step StoreWalk :=
  match ev with
  | VisitErr path err =>
      if is_ErrNotExist err then Continue st else Stop err
  | Visit path info =>
      if fi_IsDir info then
        Continue {| sw_lru := sw_lru st; sw_chunkDirs := int64 (sw_chunkDirs st + 1) |}
      else
        let name := fi_Name info in
        if HasPrefix name ".tmp" then Continue st
        else
          let ext := Ext name in
          if negb (String.eqb ext CompressedChunkExt) then Continue st
          else
            let idstr :=
              String.substring 0 (String.length name - String.length ext) name in
            match ChunkIDFromString idstr with
            | inl err => Stop err
            | inr id =>
                let stat := {| cs_id := id; cs_size := fi_Size info;
                               cs_mtime := fi_ModTime info |} in
                match GetChunk proxy id with
                | inl _ =>
                    Continue {| sw_lru := AddDead (sw_lru st) stat;
                                sw_chunkDirs := sw_chunkDirs st |}
                | inr _ =>
                    match Add (sw_lru st) stat with
                    | Some lru' =>
                        Continue {| sw_lru := lru';
                                    sw_chunkDirs := sw_chunkDirs st |}
                    | None => Panic
                    end
                end
            end
  end.

(** State of the index walk: [deadIndices], [indicesCount] and
    [inflatedSize]. *)
Record IndexWalk := mkIndexWalk {
  iw_deadIndices : gset string;
  iw_indicesCount : Z;
  iw_inflatedSize : Z
}.

(** What an integrity worker does with one [integrityCheck] it receives.
    The send on the unbuffered channel hands the check to a worker, and
    [wg.Wait()] joins the workers before [deadIndices] is read; a mark is
    the insertion of a path in a set, so the marks of the workers are
    modelled at the send.  A pass in which every worker has left on its
    idle timeout before a send blocks at that send and never reaches the
    deletions: it has no outcome here. *)
Definition integrityWorker (proxy : Proxy) (deadIndices : gset string)
    (path : string) (index : Index) : gset string :=
  let ext := Ext path in
  if String.eqb ext ".nar" then
    match checkNarContents proxy index with
    | Some _ => {[ path ]} ∪ deadIndices
    | None => deadIndices
    end
  else if String.eqb ext ".narinfo" then
    match assembleNarinfo proxy (GetChunk proxy) index with
    | Some _ => {[ path ]} ∪ deadIndices
    | None => deadIndices
    end
  else deadIndices.

(** The referential check of the index walk: the loop over
    [index.Chunks] that breaks at the first dead chunk. *)
Fixpoint someChunkDead (lru : chunkLRU) (chunks : list IndexChunk) : bool :=
  match chunks with
  | [] => false
  | indexChunk :: rest =>
      if IsDead lru (ic_ID indexChunk) then true else someChunkDead lru rest
  end.

(** [path[len(indices.Path):]], for a path at least that long. *)
Definition relName (proxy : Proxy) (path : string) : string :=
  String.substring (String.length (indexPath proxy))
    (String.length path - String.length (indexPath proxy)) path.

(** The callback of [filepath.Walk(indices.Path, ...)];
    [ignoreBeforeTime] is [time.Now().Add(10 * time.Minute)]. *)
Definition walkIndicesFn (proxy : Proxy) (lru : chunkLRU)
    (ignoreBeforeTime : Z) (st : IndexWalk) (ev : WalkEvent)
    : Step IndexWalk :=
  match ev with
  | VisitErr path err => Stop err
  | Visit path info =>
      if fi_IsDir info then Continue st
      else
        let isOld := bool_decide (fi_ModTime info < ignoreBeforeTime) in
        let ext := Ext path in
        let isNar := String.eqb ext ".nar" in
        let isNarinfo := String.eqb ext ".narinfo" in
        if negb (isNar || isNarinfo || isOld) then Continue st
        else if bool_decide (String.length path < String.length (indexPath proxy))%nat
        then Panic
        else
          let name := relName proxy path in
          match GetIndex proxy name with
          | inl err => Stop (WithMessage ("while getting index " +:+ name) err)
          | inr index =>
              let marked := integrityWorker proxy (iw_deadIndices st) path index in
              let inflatedSize := int64 (iw_inflatedSize st + Length index) in
              let indicesCount := int64 (iw_indicesCount st + 1) in
              let deadIndices :=
                if decide (length (Chunks index) = 0%nat) then {[ path ]} ∪ marked
                else if someChunkDead lru (Chunks index) then {[ path ]} ∪ marked
                else marked in
              Continue {| iw_deadIndices := deadIndices;
                          iw_indicesCount := indicesCount;
                          iw_inflatedSize := inflatedSize |}
          end
  end.

(** The deletions of a pass, in the order they are issued. *)
Inductive Effect :=
  | OsRemove (path : string)
  | RemoveChunk (id : ChunkID).

(** How a pass ends. *)
Inductive Outcome :=
  | Panicked
  | WalkStoreFailed (err : error)
  | WalkIndicesFailed (err : error)
  | Completed (lru : chunkLRU) (deadIndices : gset string)
      (effects : list Effect).

(** [time.Second] and [time.Minute], in nanoseconds. *)
Definition Second : Z := 1000000000.

Definition Minute : Z := 60 * Second.

(** [maxCacheSize := (uint64(math.Pow(2, 30)) * proxy.CacheSize) - maxCacheDirPortion] *)
Definition maxCacheSize (proxy : Proxy) : Z :=
  uint64 (uint64 (2 ^ 30 * CacheSize proxy) - maxCacheDirPortion).

(** The chunk walk of [gcOnce], from a fresh classifier. *)
Definition walkStore (proxy : Proxy) : Step StoreWalk :=
  Walk (walkStoreFn proxy)
    {| sw_lru := NewLRU (maxCacheSize proxy); sw_chunkDirs := 0 |}
    (storeFiles proxy).

(** The index walk of [gcOnce], with the integrity workers;
    [ignoreBeforeTime := time.Now().Add(10 * time.Minute)]. *)
Definition walkIndices (proxy : Proxy) (lru : chunkLRU) (now : Z)
    : Step IndexWalk :=
  let ignoreBeforeTime := now + 10 * Minute in
  Walk (walkIndicesFn proxy lru ignoreBeforeTime)
    {| iw_deadIndices := ∅; iw_indicesCount := 0; iw_inflatedSize := 0 |}
    (indexFiles proxy).

(** [gcOnce], run at the instant [now].  [deadIndices.Range] and the
    [range] over [lru.Dead()] visit their elements in an order Go leaves
    open; [elements] fixes one. *)
Definition gcOnce (proxy : Proxy) (now : Z) : Outcome :=
  match walkStore proxy with
  | Panic => Panicked
  | Stop walkStoreErr => WalkStoreFailed walkStoreErr
  | Continue sw =>
      let lru := sw_lru sw in
      match walkIndices proxy lru now with
      | Panic => Panicked
      | Stop walkIndicesErr => WalkIndicesFailed walkIndicesErr
      | Continue iw =>
          let deadIndices := iw_deadIndices iw in
          Completed lru deadIndices
            ((OsRemove <$> elements deadIndices)
               ++ (RemoveChunk <$> elements (Dead lru)))
      end
  end.

(** The deletions a pass issued; an aborted pass issued none. *)
Definition effects (o : Outcome) : list Effect :=
  match o with
  | Completed _ _ effs => effs
  | _ => []
  end.

(** The dead sets of a pass that completed. *)
Definition deadIndicesOf (o : Outcome) : option (gset string) :=
  match o with
  | Completed _ deadIndices _ => Some deadIndices
  | _ => None
  end.

Definition deadChunksOf (o : Outcome) : option (gset ChunkID) :=
  match o with
  | Completed lru _ _ => Some (dead lru)
  | _ => None
  end.

(** ** Vocabulary of the properties *)

(** A chunk offered to the classifier, through [Add] or [AddDead]. *)
Inductive Offer :=
  | ViaAdd (stat : chunkStat)
  | ViaAddDead (stat : chunkStat).

Definition offered (o : Offer) : chunkStat :=
  match o with ViaAdd s => s | ViaAddDead s => s end.

Definition offer (l : chunkLRU) (o : Offer) : option chunkLRU :=
  match o with
  | ViaAdd s => Add l s
  | ViaAddDead s => Some (AddDead l s)
  end.

Fixpoint offerAll (l : chunkLRU) (os : list Offer) : option chunkLRU :=
  match os with
  | [] => Some l
  | o :: os' =>
      match offer l o with
      | Some l' => offerAll l' os'
      | None => None
      end
  end.

(** The ids offered by a sequence, and the ids of the live sequence. *)
Definition offeredIds (os : list Offer) : list ChunkID :=
  (λ o, cs_id (offered o)) <$> os.

Definition liveIds (l : chunkLRU) : list ChunkID := cs_id <$> live l.

(** Freshest first. *)
Definition descending (l : list chunkStat) : Prop :=
  StronglySorted (λ a b, cs_mtime b ≤ cs_mtime a) l.

(** The sum [liveSize] keeps: every size converted to [uint64]. *)
Definition sumSizes (l : list chunkStat) : Z :=
  foldr (λ c acc, uint64 (cs_size c) + acc) 0 l.

(** The sum of the sizes as numbers of bytes. *)
Definition totalSize (l : list chunkStat) : Z :=
  foldr (λ c acc, cs_size c + acc) 0 l.

(** The size of a file: a non-negative [int64]. *)
Definition fileSize (z : Z) : Prop := 0 ≤ z < 2 ^ 63.

(** Every offered id is in [live] or in [dead], and in one of them only. *)
Definition exactly_one (os : list Offer) (l : chunkLRU) : Prop :=
  ∀ id, id ∈ offeredIds os →
    (id ∈ liveIds l ∨ id ∈ dead l) ∧ ¬ (id ∈ liveIds l ∧ id ∈ dead l).

(** The live sequence of [Add] after [insertAt], before any eviction. *)
Definition inserted (l : chunkLRU) (stat : chunkStat) : list chunkStat :=
  live (insertAt l (Search (length (live l)) (isOlder l stat)) stat).

(** What the classifier keeps true between two offers. *)
Record lru_inv (l : chunkLRU) : Prop := mkInv {
  inv_max : is_uint64 (liveSizeMax l);
  inv_liveSize : liveSize l = uint64 (sumSizes (live l));
  inv_deadSize : is_uint64 (deadSize l);
  inv_sorted : descending (live l);
  inv_budget : liveSize l ≤ liveSizeMax l
}.

(** The state [Add] leaves a classifier in once [stat] is inserted and
    the [k] oldest chunks of the sequence are evicted. *)
Definition afterEvictions (l : chunkLRU) (ins : list chunkStat) (k : nat)
    : chunkLRU :=
  let kept := take (length ins - k) ins in
  let gone := drop (length ins - k) ins in
  {| live := kept;
     liveSize := uint64 (sumSizes kept);
     liveSizeMax := liveSizeMax l;
     dead := list_to_set (cs_id <$> gone) ∪ dead l;
     deadSize := uint64 (deadSize l + sumSizes gone) |}.

(** The offer the chunk walk makes for an entry, if it makes one. *)
Definition classify (proxy : Proxy) (ev : WalkEvent) : option Offer :=
  match ev with
  | VisitErr _ _ => None
  | Visit path info =>
      let name := fi_Name info in
      let ext := Ext name in
      if fi_IsDir info || HasPrefix name ".tmp"
         || negb (String.eqb ext CompressedChunkExt) then None
      else
        match ChunkIDFromString
                (String.substring 0 (String.length name - String.length ext) name) with
        | inl _ => None
        | inr id =>
            let stat := {| cs_id := id; cs_size := fi_Size info;
                           cs_mtime := fi_ModTime info |} in
            Some (match GetChunk proxy id with
                  | inl _ => ViaAddDead stat
                  | inr _ => ViaAdd stat
                  end)
        end
  end.

Definition offersOf (proxy : Proxy) (evs : list WalkEvent) : list Offer :=
  omap (classify proxy) evs.

(** Whether the index walk examines an entry: loads it, submits it to the
    integrity workers and runs the referential check on it. *)
Definition examined (ignoreBeforeTime : Z) (ev : WalkEvent) : bool :=
  match ev with
  | VisitErr _ _ => false
  | Visit path info =>
      negb (fi_IsDir info)
      && (String.eqb (Ext path) ".nar" || String.eqb (Ext path) ".narinfo"
          || bool_decide (fi_ModTime info < ignoreBeforeTime))
  end.

(** The store after a deletion that succeeds.  [os.Remove(path)] takes the
    file out of the index directory; [store.RemoveChunk(id)] removes the
    file [nameFromID(id)], after which [GetChunk(id)] fails. *)
Definition applyEffect (proxy : Proxy) (eff : Effect) : Proxy :=
  match eff with
  | OsRemove path =>
      {| CacheSize := CacheSize proxy; storeBase := storeBase proxy;
         storeFiles := storeFiles proxy; GetChunk := GetChunk proxy;
         indexPath := indexPath proxy;
         indexFiles := filter (λ ev, ev_path ev ≠ path) (indexFiles proxy);
         GetIndex := GetIndex proxy; narReader := narReader proxy;
         assembleNarinfo := assembleNarinfo proxy |}
  | RemoveChunk id =>
      {| CacheSize := CacheSize proxy; storeBase := storeBase proxy;
         storeFiles :=
           filter (λ ev, ev_path ev ≠ nameFromID (storeBase proxy) id)
             (storeFiles proxy);
         GetChunk := λ i, if decide (i = id) then inl (ErrString "chunk missing")
                          else GetChunk proxy i;
         indexPath := indexPath proxy; indexFiles := indexFiles proxy;
         GetIndex := GetIndex proxy; narReader := narReader proxy;
         assembleNarinfo := assembleNarinfo proxy |}
  end.

(** The store a pass leaves behind when its deletions succeed. *)
Definition afterPass (proxy : Proxy) (now : Z) : Proxy :=
  foldl applyEffect proxy (effects (gcOnce proxy now)).

(** The index paths and the chunk ids a sequence of deletions names. *)
Definition removedPaths (effs : list Effect) : list string :=
  omap (λ e, match e with OsRemove path => Some path | _ => None end) effs.

Definition removedChunks (effs : list Effect) : list ChunkID :=
  omap (λ e, match e with RemoveChunk id => Some id | _ => None end) effs.

(** The chunks a sequence of offers hands to [Add]. *)
Definition adds (os : list Offer) : list chunkStat :=
  omap (λ o, match o with ViaAdd s => Some s | ViaAddDead _ => None end) os.

(** The error the callback of the chunk walk returns for an entry, if it
    returns one; it depends on the entry only. *)
Definition storeWalkError (ev : WalkEvent) : option error :=
  match ev with
  | VisitErr _ err => if is_ErrNotExist err then None else Some err
  | Visit _ info =>
      let name := fi_Name info in
      let ext := Ext name in
      if fi_IsDir info || HasPrefix name ".tmp"
         || negb (String.eqb ext CompressedChunkExt) then None
      else
        match ChunkIDFromString
                (String.substring 0 (String.length name - String.length ext) name) with
        | inl err => Some err
        | inr _ => None
        end
  end.

(** Whether the integrity worker marks the index at [path]. *)
Definition integrityFails (proxy : Proxy) (path : string) (index : Index)
    : bool :=
  if String.eqb (Ext path) ".nar" then
    bool_decide (is_Some (checkNarContents proxy index))
  else if String.eqb (Ext path) ".narinfo" then
    bool_decide (is_Some (assembleNarinfo proxy (GetChunk proxy) index))
  else false.

(** Whether the index walk, with its workers, marks an examined index. *)
Definition marks (proxy : Proxy) (lru : chunkLRU) (path : string)
    (index : Index) : bool :=
  bool_decide (Chunks index = []) || someChunkDead lru (Chunks index)
  || integrityFails proxy path index.

(** Every chunk file lies where the chunk store looks for its id. *)
Definition canonicalStore (proxy : Proxy) : Prop :=
  ∀ path info o,
    Visit path info ∈ storeFiles proxy →
    classify proxy (Visit path info) = Some o →
    path = nameFromID (storeBase proxy) (cs_id (offered o)).

(** The integrity checks read the store at the chunks of the index they
    check, and nowhere else. *)
Definition readsOnlyChunksOf (proxy : Proxy) : Prop :=
  ∀ (g g' : Store) (index : Index),
    (∀ c, c ∈ Chunks index → g (ic_ID c) = g' (ic_ID c)) →
    narReader proxy g index = narReader proxy g' index
    ∧ assembleNarinfo proxy g index = assembleNarinfo proxy g' index.

(** Whether an entry of a walk is a directory. *)
Definition isDirectory (ev : WalkEvent) : bool :=
  match ev with
  | Visit _ info => fi_IsDir info
  | VisitErr _ _ => false
  end.

(** ** The GC loop and the NAR reader's results *)



(** The number of entries [Next] returns before [io.EOF]; [None] when it
    returns an error first. *)
Fixpoint narEntries (rd : NarStream) : option nat :=
  match rd with
  | NarEntry rest => S <$> narEntries rest
  | NarEOF => Some 0%nat
  | NarError _ => None
  end.

(** ** Example stores *)

(** A chunk id, 32 bytes: 31 zero bytes, then [n]. *)
Definition idOf (n : N) : ChunkID := replicate 31 0%N ++ [n].

(** Three chunks, from the oldest to the freshest. *)
Definition chunkA : chunkStat := {| cs_id := idOf 1; cs_size := 6; cs_mtime := 1 |}.
Definition chunkB : chunkStat := {| cs_id := idOf 2; cs_size := 6; cs_mtime := 2 |}.
Definition chunkC : chunkStat := {| cs_id := idOf 3; cs_size := 4; cs_mtime := 3 |}.

(** A chunk file at the place desync gives it, and an entry of the index
    directory. *)
Definition chunkFile (base : string) (id : ChunkID) (size mtime : Z)
    : WalkEvent :=
  Visit (nameFromID base id)
    {| fi_Name := fileName id; fi_Size := size; fi_ModTime := mtime;
       fi_IsDir := false |}.

Definition dirEntry (path name : string) : WalkEvent :=
  Visit path {| fi_Name := name; fi_Size := 4096; fi_ModTime := 0;
                fi_IsDir := true |}.

Definition indexFile (dir name : string) (mtime : Z) : WalkEvent :=
  Visit (dir +:+ name)
    {| fi_Name := name; fi_Size := 100; fi_ModTime := mtime;
       fi_IsDir := false |}.

Definition indexOf (ids : list ChunkID) : Index :=
  {| Chunks := (λ id, {| ic_ID := id; ic_Start := 0; ic_Size := 1 |}) <$> ids |}.

(** The instant of the example passes: 1000 minutes after the epoch. *)
Definition t0 : Z := 1000 * Minute.

(** A store of 1 GiB ([maxCacheSize] is 805310464 bytes) with two chunks
    of 500000000 bytes, a file being written, and three indices: one on
    both chunks, one on the fresher chunk, one without chunks. *)
Definition demo : Proxy :=
  {| CacheSize := 1;
     storeBase := "/store";
     storeFiles :=
       [ dirEntry "/store" "store";
         dirEntry "/store/0000" "0000";
         chunkFile "/store" (idOf 1) 500000000 (10 * Minute);
         chunkFile "/store" (idOf 2) 500000000 (20 * Minute);
         Visit "/store/0000/.tmp-cacnk123"
           {| fi_Name := ".tmp-cacnk123"; fi_Size := 7; fi_ModTime := t0;
              fi_IsDir := false |} ];
     GetChunk := λ _, inr [];
     indexPath := "/index/";
     indexFiles :=
       [ dirEntry "/index/" "index";
         indexFile "/index/" "a.nar" (30 * Minute);
         indexFile "/index/" "b.narinfo" (30 * Minute);
         indexFile "/index/" "c.nar" (30 * Minute) ];
     GetIndex := λ name,
       if String.eqb name "a.nar" then inr (indexOf [idOf 1; idOf 2])
       else if String.eqb name "b.narinfo" then inr (indexOf [idOf 2])
       else if String.eqb name "c.nar" then inr (indexOf [])
       else inl ErrNotExist;
     narReader := λ _ _, inr (NarEntry NarEOF);
     assembleNarinfo := λ _ _, None |}.

(** [proxy] with another index directory. *)
Definition withIndices (proxy : Proxy) (files : list WalkEvent)
    (getIndex : string → error + Index) : Proxy :=
  {| CacheSize := CacheSize proxy; storeBase := storeBase proxy;
     storeFiles := storeFiles proxy; GetChunk := GetChunk proxy;
     indexPath := indexPath proxy; indexFiles := files;
     GetIndex := getIndex; narReader := narReader proxy;
     assembleNarinfo := assembleNarinfo proxy |}.

(** [proxy] with another chunk directory. *)
Definition withChunks (proxy : Proxy) (files : list WalkEvent)
    (getChunk : Store) : Proxy :=
  {| CacheSize := CacheSize proxy; storeBase := storeBase proxy;
     storeFiles := files; GetChunk := getChunk;
     indexPath := indexPath proxy; indexFiles := indexFiles proxy;
     GetIndex := GetIndex proxy; narReader := narReader proxy;
     assembleNarinfo := assembleNarinfo proxy |}.

(** The chunk walk meets an entry that was deleted between the reading of
    its directory and its [lstat]: [filepath.Walk] reports the
    [*fs.PathError] of [os.Lstat]. *)
Definition vanished : WalkEvent :=
  VisitErr (nameFromID "/store" (idOf 3))
    (PathError "lstat" (nameFromID "/store" (idOf 3)) ENOENT).

Definition raced : Proxy :=
  withChunks demo
    [ dirEntry "/store" "store";
      dirEntry "/store/0000" "0000";
      chunkFile "/store" (idOf 1) 500000000 (10 * Minute);
      vanished;
      chunkFile "/store" (idOf 2) 500000000 (20 * Minute) ]
    (GetChunk demo).

(** A store within its budget: two chunks of five bytes. *)
Definition quiet : Proxy :=
  withChunks demo
    [ dirEntry "/store" "store";
      dirEntry "/store/0000" "0000";
      chunkFile "/store" (idOf 1) 5 (10 * Minute);
      chunkFile "/store" (idOf 2) 5 (20 * Minute) ]
    (λ id, if decide (id = idOf 1 ∨ id = idOf 2) then inr []
           else inl (ErrString "chunk missing")).

(** An index directory with one file of an unknown kind, written one
    minute before the pass, that holds an index without chunks. *)
Definition fresh_unknown : Proxy :=
  withIndices quiet
    [ dirEntry "/index/" "index";
      indexFile "/index/" "x.foo" (t0 - 1 * Minute) ]
    (λ name, if String.eqb name "x.foo" then inr (indexOf [])
             else inl ErrNotExist).

(** An old index file of an unknown kind that refers to a chunk with no
    file in the store. *)
Definition dangling : Proxy :=
  withIndices quiet
    [ dirEntry "/index/" "index";
      indexFile "/index/" "old.caibx" (30 * Minute) ]
    (λ name, if String.eqb name "old.caibx" then inr (indexOf [idOf 9])
             else inl ErrNotExist).

(** An index directory with a file whose name begins with [.tmp]. *)
Definition tmp_index : Proxy :=
  withIndices quiet
    [ dirEntry "/index/" "index";
      indexFile "/index/" ".tmp-upload.nar" (30 * Minute) ]
    (λ name, if String.eqb name ".tmp-upload.nar" then inr (indexOf [])
             else inl ErrNotExist).

(** An index directory whose second file cannot be loaded. *)
Definition unreadable : Proxy :=
  withIndices demo
    [ dirEntry "/index/" "index";
      indexFile "/index/" "a.nar" (30 * Minute);
      indexFile "/index/" "junk.nar" (30 * Minute) ]
    (λ name, if String.eqb name "a.nar" then inr (indexOf [idOf 1; idOf 2])
             else inl (ErrString "invalid index")).

(** An index directory with a file of an unknown kind whose mtime lies
    ten minutes and five seconds after [t0], holding an index without
    chunks. *)
Definition future_file : Proxy :=
  withIndices quiet
    [ dirEntry "/index/" "index";
      indexFile "/index/" "x.foo" (t0 + 10 * Minute + 5 * Second) ]
    (λ name, if String.eqb name "x.foo" then inr (indexOf [])
             else inl ErrNotExist).

(** A store of 1 GiB in which the chunk [idOf 1] has two files: the one
    desync wrote, and a fresher copy left in another directory. *)
Definition stray : Proxy :=
  withIndices
    (withChunks demo
       [ dirEntry "/store" "store";
         dirEntry "/store/0000" "0000";
         chunkFile "/store" (idOf 1) 500000000 (10 * Minute);
         dirEntry "/store/lost" "lost";
         Visit ("/store/lost/" +:+ fileName (idOf 1))
           {| fi_Name := fileName (idOf 1); fi_Size := 500000000;
              fi_ModTime := 20 * Minute; fi_IsDir := false |} ]
       (GetChunk demo))
    [ dirEntry "/index/" "index" ]
    (λ _, inl ErrNotExist).

(** A chunk directory with a file whose name is not an id. *)
Definition malformed : Proxy :=
  withChunks demo
    [ dirEntry "/store" "store";
      dirEntry "/store/0000" "0000";
      chunkFile "/store" (idOf 1) 500000000 (10 * Minute);
      Visit "/store/0000/notes.cacnk"
        {| fi_Name := "notes.cacnk"; fi_Size := 12; fi_ModTime := t0;
           fi_IsDir := false |};
      chunkFile "/store" (idOf 2) 500000000 (20 * Minute) ]
    (GetChunk demo).

(** The store [quiet] with the index directory of [demo]; the second chunk
    cannot be read. *)
Definition corrupt : Proxy :=
  withIndices
    (withChunks quiet (storeFiles quiet)
       (λ id, if decide (id = idOf 1) then inr []
              else inl (ErrString "chunk is corrupt")))
    (indexFiles demo) (GetIndex demo).

(** The store [demo] configured with a cache size of zero. *)
Definition unbounded : Proxy :=
  {| CacheSize := 0;
     storeBase := storeBase demo; storeFiles := storeFiles demo;
     GetChunk := GetChunk demo;
     indexPath := indexPath demo; indexFiles := indexFiles demo;
     GetIndex := GetIndex demo; narReader := narReader demo;
     assembleNarinfo := assembleNarinfo demo |}.

(** * Properties *)

(** ** Machine integers *)

Lemma uint64_range z : is_uint64 (uint64 z).
Proof. unfold is_uint64, uint64. apply Z.mod_pos_bound. lia. Qed.

Lemma uint64_small z : is_uint64 z → uint64 z = z.
Proof. unfold is_uint64, uint64. intros Hz. apply Z.mod_small. lia. Qed.

Lemma uint64_add_l a b : uint64 (uint64 a + b) = uint64 (a + b).
Proof. unfold uint64. by rewrite Zplus_mod_idemp_l. Qed.

Lemma uint64_add_r a b : uint64 (a + uint64 b) = uint64 (a + b).
Proof. unfold uint64. by rewrite Zplus_mod_idemp_r. Qed.

Lemma uint64_sub_l a b : uint64 (uint64 a - b) = uint64 (a - b).
Proof. unfold uint64. by rewrite Zminus_mod_idemp_l. Qed.

Lemma uint64_sub_r a b : uint64 (a - uint64 b) = uint64 (a - b).
Proof. unfold uint64. by rewrite Zminus_mod_idemp_r. Qed.

Lemma fileSize_uint64 z : fileSize z → uint64 z = z.
Proof. unfold fileSize. intros Hz. apply uint64_small. unfold is_uint64. lia. Qed.

(** ** [sort.Search] *)

(** What the binary search guarantees for any predicate: the answer lies
    in the interval, the predicate fails just below it and holds at it. *)
Lemma search_loop_post f i j :
  (i ≤ j)%nat →
  (i ≤ search_loop f i j ≤ j)%nat
  ∧ (search_loop f i j = i ∨ f (search_loop f i j - 1)%nat = false)
  ∧ (search_loop f i j = j ∨ f (search_loop f i j) = true).
Proof.
  funelim (search_loop f i j); intros Hij.
  - lia.
  - pose proof (Nat.div2_odd (i + j)) as Hd.
    assert (i ≤ Nat.div2 (i + j) < j)%nat as Hh
      by (destruct (Nat.odd (i + j)); simpl in Hd; lia).
    destruct H as (Hr & Hlo & Hhi); [lia|].
    split; [lia|]. split; [done|].
    destruct Hhi as [Hhi | Hhi]; [|by right]. right. by rewrite Hhi.
  - pose proof (Nat.div2_odd (i + j)) as Hd.
    assert (i ≤ Nat.div2 (i + j) < j)%nat as Hh
      by (destruct (Nat.odd (i + j)); simpl in Hd; lia).
    destruct H as (Hr & Hlo & Hhi); [lia|].
    split; [lia|]. split; [|done].
    destruct Hlo as [Hlo | Hlo]; [|by right]. right. rewrite Hlo.
    by replace (Nat.div2 (i + j) + 1 - 1)%nat with (Nat.div2 (i + j)) by lia.
Qed.

Lemma Search_post n f :
  (Search n f ≤ n)%nat
  ∧ (Search n f = 0%nat ∨ f (Search n f - 1)%nat = false)
  ∧ (Search n f = n ∨ f (Search n f) = true).
Proof.
  unfold Search. destruct (search_loop_post f 0 n) as (? & ? & ?); [lia|].
  split; [lia|]. done.
Qed.

(** ** Insertion keeps the live sequence in order *)

Lemma insertAt_live l i v :
  (i ≤ length (live l))%nat →
  live (insertAt l i v) = take i (live l) ++ v :: drop i (live l).
Proof.
  intros Hi. unfold insertAt. simpl. case_decide as Heq.
  - subst i. by rewrite take_ge, drop_ge by lia.
  - destruct (lookup_lt_is_Some_2 (live l) i) as [x Hx]; [lia|].
    replace (i + 1)%nat with (S i) by lia.
    rewrite (take_S_r _ _ _ Hx), <- (assoc_L (++)).
    rewrite insert_app_r_alt by (rewrite length_take; lia).
    rewrite length_take.
    replace (i - i `min` length (live l))%nat with 0%nat by lia.
    done.
Qed.

Lemma descending_lookup l a b x y :
  descending l → (a ≤ b)%nat → l !! a = Some x → l !! b = Some y →
  cs_mtime y ≤ cs_mtime x.
Proof.
  intros Hs Hab Hx Hy.
  destruct (decide (a = b)) as [-> | Hne].
  { rewrite Hx in Hy. injection Hy as ->. lia. }
  unfold descending in Hs. rewrite <- (take_drop b l) in Hs.
  apply (StronglySorted_app_1_elem_of _ _ _ x y) in Hs; [done| |].
  - apply list_elem_of_lookup. exists a. rewrite lookup_take_lt by lia. done.
  - apply list_elem_of_lookup. exists 0%nat. rewrite lookup_drop.
    by rewrite Nat.add_0_r.
Qed.

(** The position [Add] inserts at splits the sequence into the chunks at
    least as fresh as [stat] and the chunks strictly older. *)
Lemma Search_isOlder l stat :
  descending (live l) →
  let i := Search (length (live l)) (isOlder l stat) in
  (i ≤ length (live l))%nat
  ∧ Forall (λ c, cs_mtime stat ≤ cs_mtime c) (take i (live l))
  ∧ Forall (λ c, cs_mtime c < cs_mtime stat) (drop i (live l)).
Proof.
  intros Hs i.
  destruct (Search_post (length (live l)) (isOlder l stat))
    as (Hle & Hlo & Hhi). fold i in Hle, Hlo, Hhi.
  split; [done|]. split.
  - apply Forall_forall. intros x Hx.
    apply list_elem_of_lookup in Hx as [k Hk].
    apply lookup_take_Some in Hk as [Hk Hki].
    destruct Hlo as [Hlo | Hlo]; [lia|].
    unfold isOlder in Hlo.
    destruct (live l !! (i - 1)%nat) as [c|] eqn:Hc.
    + apply bool_decide_eq_false in Hlo.
      pose proof (descending_lookup _ k (i - 1)%nat x c Hs ltac:(lia) Hk Hc).
      lia.
    + apply lookup_ge_None in Hc. lia.
  - apply Forall_forall. intros x Hx.
    apply list_elem_of_lookup in Hx as [k Hk].
    rewrite lookup_drop in Hk.
    destruct Hhi as [Hhi | Hhi].
    { apply lookup_lt_Some in Hk. lia. }
    unfold isOlder in Hhi.
    destruct (live l !! i) as [c|] eqn:Hc; [|done].
    apply bool_decide_eq_true in Hhi.
    pose proof (descending_lookup _ i (i + k)%nat c x Hs ltac:(lia) Hc Hk).
    lia.
Qed.

Lemma descending_insert l i stat :
  descending l →
  Forall (λ c, cs_mtime stat ≤ cs_mtime c) (take i l) →
  Forall (λ c, cs_mtime c < cs_mtime stat) (drop i l) →
  descending (take i l ++ stat :: drop i l).
Proof.
  intros Hs Hbefore Hafter. unfold descending in *.
  rewrite <- (take_drop i l) in Hs.
  apply StronglySorted_app in Hs as (Hcross & Hl & Hr).
  apply StronglySorted_app. split; [|split; [done|]].
  - intros x1 x2 Hx1 Hx2. apply elem_of_cons in Hx2 as [-> | Hx2].
    + by apply (proj1 (Forall_forall _ _) Hbefore).
    + by apply Hcross.
  - apply StronglySorted_cons. split; [|done].
    eapply Forall_impl; [exact Hafter|]. simpl. intros. lia.
Qed.

Lemma descending_take l n : descending l → descending (take n l).
Proof.
  unfold descending. intros Hs. rewrite <- (take_drop n l) in Hs.
  by apply StronglySorted_app_1_l in Hs.
Qed.

(** ** The eviction loop *)

Lemma evict_done l : liveSize l ≤ liveSizeMax l → evict l = Some l.
Proof.
  intros Hle. simp evict.
  destruct (decide (liveSizeMax l < liveSize l)) as [Hlt | Hge]; [lia|].
  by simp evict.
Qed.

Lemma evict_step l :
  liveSizeMax l < liveSize l →
  evict l = match evict1 l with Some l' => evict l' | None => None end.
Proof.
  intros Hlt. funelim (evict l).
  - lia.
  - by rewrite He.
  - by rewrite e.
Qed.

Lemma sumSizes_app l1 l2 : sumSizes (l1 ++ l2) = sumSizes l1 + sumSizes l2.
Proof. induction l1 as [|c l1 IH]; simpl; [done|]. rewrite IH. lia. Qed.

Lemma sumSizes_nonneg l : 0 ≤ sumSizes l.
Proof.
  induction l as [|c l IH]; simpl; [done|].
  pose proof (uint64_range (cs_size c)) as Hc. unfold is_uint64 in Hc. lia.
Qed.

Lemma afterEvictions_0 l :
  is_uint64 (deadSize l) →
  liveSize l = uint64 (sumSizes (live l)) →
  afterEvictions l (live l) 0 = l.
Proof.
  intros Hdead Hsize. destruct l as [lv ls lm d ds]. simpl in *.
  unfold afterEvictions. simpl.
  rewrite Nat.sub_0_r, take_ge, drop_ge by lia. simpl.
  rewrite (left_id_L ∅ (∪)), Z.add_0_r, (uint64_small ds) by done.
  by rewrite Hsize.
Qed.

(** The loop evicts the [k] oldest chunks, where [k] is the first number
    of evictions that brings [liveSize] within the budget: it never
    panics, and it evicts only while [liveSize] exceeds [liveSizeMax]. *)
Lemma evict_spec n : ∀ l,
  length (live l) = n →
  is_uint64 (liveSizeMax l) →
  is_uint64 (deadSize l) →
  liveSize l = uint64 (sumSizes (live l)) →
  ∃ k, (k ≤ length (live l))%nat
    ∧ evict l = Some (afterEvictions l (live l) k)
    ∧ (∀ j, (j < k)%nat →
         liveSizeMax l
         < uint64 (sumSizes (take (length (live l) - j) (live l))))
    ∧ uint64 (sumSizes (take (length (live l) - k) (live l))) ≤ liveSizeMax l.
Proof.
  induction n as [|n IH]; intros l Hn Hmax Hdead Hsize.
  - exists 0%nat. rewrite afterEvictions_0 by done.
    apply nil_length_inv in Hn. rewrite Hn in *. simpl in Hsize.
    unfold is_uint64 in Hmax. change (uint64 0) with 0 in Hsize.
    split; [done|]. split; [apply evict_done; lia|].
    split; [lia|]. simpl. change (uint64 0) with 0. lia.
  - destruct (decide (liveSizeMax l < liveSize l)) as [Hlt | Hge].
    + destruct (live l) as [|c0 lv0] eqn:Hlive using rev_ind; [done|].
      clear IHlv0. rewrite length_app in Hn. simpl in Hn.
      rewrite evict_step by done.
      unfold evict1. rewrite Hlive, last_snoc.
      rewrite length_app. simpl.
      replace (length lv0 + 1 - 1)%nat with (length lv0) by lia.
      rewrite take_app_length.
      set (l1 := {| live := lv0;
                    liveSize := uint64 (liveSize l - uint64 (cs_size c0));
                    liveSizeMax := liveSizeMax l;
                    dead := {[cs_id c0]} ∪ dead l;
                    deadSize := uint64 (deadSize l + uint64 (cs_size c0)) |}).
      destruct (IH l1) as (k & Hk & Hev & Hwhile & Hend); simpl.
      * lia.
      * done.
      * apply uint64_range.
      * rewrite Hsize, sumSizes_app. simpl. rewrite uint64_sub_l.
        f_equal. lia.
      * simpl in *. exists (S k). rewrite ?length_app. simpl (length [c0]).
        split; [lia|].
        rewrite Hev. split; [|split].
        -- f_equal. unfold afterEvictions. simpl.
           rewrite ?length_app. simpl (length [c0]).
           replace (length lv0 + 1 - S k)%nat with (length lv0 - k)%nat by lia.
           rewrite take_app_le, drop_app_le by lia.
           rewrite fmap_app, list_to_set_app_L, sumSizes_app. simpl.
           f_equal.
           ++ by rewrite (right_id_L ∅ (∪)), (assoc_L (∪)).
           ++ rewrite uint64_add_l. f_equal. lia.
        -- intros j Hj. destruct j as [|j].
           ++ rewrite Nat.sub_0_r, take_ge by (rewrite length_app; simpl; lia).
              rewrite <- Hsize. done.
           ++ replace (length lv0 + 1 - S j)%nat with (length lv0 - j)%nat by lia.
              rewrite take_app_le by lia. apply Hwhile. lia.
        -- replace (length lv0 + 1 - S k)%nat with (length lv0 - k)%nat by lia.
           by rewrite take_app_le by lia.
    + exists 0%nat. rewrite afterEvictions_0 by done.
      split; [lia|]. split; [apply evict_done; lia|].
      rewrite Nat.sub_0_r, take_ge by lia.
      split; [lia|]. rewrite <- Hsize. lia.
Qed.

(** ** [Add] and [AddDead] *)

Lemma inserted_split l stat :
  descending (live l) →
  ∃ before after,
    live l = before ++ after
    ∧ inserted l stat = before ++ stat :: after
    ∧ Forall (λ c, cs_mtime stat ≤ cs_mtime c) before
    ∧ Forall (λ c, cs_mtime c < cs_mtime stat) after.
Proof.
  intros Hs. destruct (Search_isOlder l stat Hs) as (Hi & Hb & Ha).
  exists (take (Search (length (live l)) (isOlder l stat)) (live l)),
         (drop (Search (length (live l)) (isOlder l stat)) (live l)).
  split; [by rewrite take_drop|]. split; [|done].
  unfold inserted. by apply insertAt_live.
Qed.

Lemma inserted_descending l stat :
  descending (live l) → descending (inserted l stat).
Proof.
  intros Hs. destruct (Search_isOlder l stat Hs) as (Hi & Hb & Ha).
  unfold inserted. rewrite insertAt_live by done.
  by apply descending_insert.
Qed.

Lemma inserted_perm l stat :
  descending (live l) → inserted l stat ≡ₚ stat :: live l.
Proof.
  intros Hs. destruct (inserted_split l stat Hs) as (b & a & Hl & Hi & _).
  rewrite Hi, Hl. by rewrite Permutation_middle.
Qed.

Lemma sumSizes_perm l1 l2 : l1 ≡ₚ l2 → sumSizes l1 = sumSizes l2.
Proof.
  induction 1 as [|x l1 l2 _ IH|x y l|l1 l2 l3 _ IH1 _ IH2]; simpl; lia.
Qed.

Lemma afterEvictions_inv l ins k :
  is_uint64 (liveSizeMax l) →
  descending ins →
  uint64 (sumSizes (take (length ins - k) ins)) ≤ liveSizeMax l →
  lru_inv (afterEvictions l ins k).
Proof.
  intros Hmax Hs Hle. split; simpl; try done.
  - apply uint64_range.
  - by apply descending_take.
Qed.

(** [Add] never panics on a classifier in a consistent state: it inserts
    [stat] in order and evicts the [k] oldest chunks, [k] being the first
    number of evictions after which [liveSize] is within [liveSizeMax]. *)
Lemma Add_spec l stat :
  lru_inv l →
  ∃ k, (k ≤ length (inserted l stat))%nat
    ∧ Add l stat = Some (afterEvictions l (inserted l stat) k)
    ∧ (∀ j, (j < k)%nat →
         liveSizeMax l
         < uint64 (sumSizes (take (length (inserted l stat) - j)
                               (inserted l stat))))
    ∧ uint64 (sumSizes (take (length (inserted l stat) - k)
                          (inserted l stat))) ≤ liveSizeMax l.
Proof.
  intros [Hmax Hsize Hdead Hs Hb].
  set (l1 := {| live := inserted l stat;
                liveSize := uint64 (liveSize l + uint64 (cs_size stat));
                liveSizeMax := liveSizeMax l;
                dead := dead l; deadSize := deadSize l |}).
  destruct (evict_spec (length (live l1)) l1 eq_refl) as (k & Hk & Hev & Hw & He).
  - done.
  - done.
  - simpl. rewrite (sumSizes_perm _ _ (inserted_perm l stat Hs)). simpl.
    rewrite Hsize, uint64_add_l. f_equal. lia.
  - exists k. done.
Qed.

Lemma Add_inv l stat l' : lru_inv l → Add l stat = Some l' → lru_inv l'.
Proof.
  intros Hinv Hadd. destruct (Add_spec l stat Hinv) as (k & _ & Hk & _ & Hle).
  rewrite Hk in Hadd. injection Hadd as <-.
  apply afterEvictions_inv; [apply Hinv| |done].
  apply inserted_descending, Hinv.
Qed.

Lemma AddDead_inv l stat : lru_inv l → lru_inv (AddDead l stat).
Proof.
  intros [Hmax Hsize Hdead Hs Hb]. split; simpl; try done. apply uint64_range.
Qed.

Lemma NewLRU_inv max : is_uint64 max → lru_inv (NewLRU max).
Proof.
  intros Hmax. split; simpl; try done.
  - constructor.
  - unfold is_uint64 in Hmax. lia.
Qed.

Lemma offer_inv l o l' : lru_inv l → offer l o = Some l' → lru_inv l'.
Proof.
  intros Hinv. destruct o as [s|s]; simpl.
  - by apply Add_inv.
  - intros [= <-]. by apply AddDead_inv.
Qed.

Lemma offer_total l o : lru_inv l → ∃ l', offer l o = Some l'.
Proof.
  intros Hinv. destruct o as [s|s]; simpl; [|by eexists].
  destruct (Add_spec l s Hinv) as (k & _ & Hk & _). by eexists.
Qed.

Lemma offerAll_total os : ∀ l,
  lru_inv l → ∃ l', offerAll l os = Some l' ∧ lru_inv l'.
Proof.
  induction os as [|o os IH]; intros l Hinv; simpl; [by exists l|].
  destruct (offer_total l o Hinv) as [l1 Hl1]. rewrite Hl1.
  apply IH. by eapply offer_inv.
Qed.

Lemma offerAll_app os1 os2 l :
  offerAll l (os1 ++ os2)
  = match offerAll l os1 with Some l1 => offerAll l1 os2 | None => None end.
Proof.
  revert l. induction os1 as [|o os1 IH]; intros l; simpl; [done|].
  destruct (offer l o); [apply IH|done].
Qed.

(** ** Offers that fit in the budget *)

Lemma afterEvictions_0_fields l ins :
  live (afterEvictions l ins 0) = ins ∧ dead (afterEvictions l ins 0) = dead l.
Proof.
  unfold afterEvictions. simpl.
  rewrite Nat.sub_0_r, take_ge, drop_ge by lia. simpl.
  by rewrite (left_id_L ∅ (∪)).
Qed.

Lemma Add_within_budget l stat :
  lru_inv l →
  sumSizes (live l) + uint64 (cs_size stat) ≤ liveSizeMax l →
  Add l stat = Some (afterEvictions l (inserted l stat) 0).
Proof.
  intros Hinv Hfit. destruct (Add_spec l stat Hinv) as (k & _ & Hk & Hw & _).
  destruct k as [|k]; [done|]. exfalso.
  specialize (Hw 0%nat ltac:(lia)).
  rewrite Nat.sub_0_r, take_ge in Hw by lia.
  rewrite (sumSizes_perm _ _ (inserted_perm l stat (inv_sorted _ Hinv))) in Hw.
  simpl in Hw.
  pose proof (sumSizes_nonneg (live l)) as Hnn.
  pose proof (uint64_range (cs_size stat)) as Hc.
  pose proof (inv_max _ Hinv) as Hmax. unfold is_uint64 in *.
  rewrite uint64_small in Hw by (unfold is_uint64; lia). lia.
Qed.

Lemma offerAll_within_budget stats : ∀ l,
  lru_inv l →
  sumSizes (live l) + sumSizes stats ≤ liveSizeMax l →
  ∃ l', offerAll l (ViaAdd <$> stats) = Some l'
    ∧ dead l' = dead l
    ∧ live l' ≡ₚ live l ++ stats
    ∧ liveSizeMax l' = liveSizeMax l.
Proof.
  induction stats as [|s stats IH]; intros l Hinv Hfit; simpl.
  - exists l. by rewrite (right_id_L [] (++)).
  - simpl in Hfit. pose proof (sumSizes_nonneg stats) as Hnn.
    rewrite Add_within_budget by (done || lia).
    destruct (afterEvictions_0_fields l (inserted l s)) as [Hlive Hdead].
    pose proof (inserted_perm l s (inv_sorted _ Hinv)) as Hperm.
    destruct (IH (afterEvictions l (inserted l s) 0)) as (l' & Hl' & Hd & Hp & Hm).
    + eapply Add_inv; [exact Hinv|]. by apply Add_within_budget; [|lia].
    + rewrite Hlive, (sumSizes_perm _ _ Hperm). simpl. lia.
    + exists l'. split; [done|]. split; [by rewrite Hd|]. split; [|done].
      rewrite Hp, Hlive, Hperm. by rewrite <- Permutation_middle.
Qed.

Lemma sumSizes_fileSize l :
  Forall (λ c, fileSize (cs_size c)) l → sumSizes l = totalSize l.
Proof.
  induction 1 as [|c l Hc _ IH]; simpl; [done|].
  by rewrite IH, fileSize_uint64.
Qed.

Lemma offer_max l o l' :
  lru_inv l → offer l o = Some l' → liveSizeMax l' = liveSizeMax l.
Proof.
  intros Hinv. destruct o as [s|s]; simpl.
  - destruct (Add_spec l s Hinv) as (k & _ & Hk & _). rewrite Hk.
    by intros [= <-].
  - by intros [= <-].
Qed.

Lemma offerAll_max os : ∀ l l',
  lru_inv l → offerAll l os = Some l' → liveSizeMax l' = liveSizeMax l.
Proof.
  induction os as [|o os IH]; intros l l' Hinv; simpl.
  - by intros [= <-].
  - destruct (offer l o) as [l1|] eqn:Ho; [|done]. intros Hl'.
    rewrite (IH l1 l'); [by eapply offer_max|by eapply offer_inv|done].
Qed.

(** C2. For every sequence of chunks offered through [Add], the live
    sequence stays in descending-mtime order; an insertion is followed by
    the eviction of the [k] chunks at the tail, none of them fresher than
    a chunk that stays, and each of them is evicted while [liveSize]
    strictly exceeds [liveSizeMax] (after [j < k] evictions the size is
    still above the budget, after [k] it is within it); when the sizes
    offered add up to [liveSizeMax] exactly, nothing is evicted. *)
Theorem C2_add_keeps_order_and_evicts_over_budget (max : Z) :
  is_uint64 max →
  (∀ (stats : list chunkStat) (stat : chunkStat),
     ∃ l k,
       offerAll (NewLRU max) (ViaAdd <$> stats) = Some l
       ∧ descending (live l)
       ∧ descending (inserted l stat)
       ∧ inserted l stat ≡ₚ stat :: live l
       ∧ (k ≤ length (inserted l stat))%nat
       ∧ offerAll (NewLRU max) (ViaAdd <$> (stats ++ [stat]))
         = Some (afterEvictions l (inserted l stat) k)
       ∧ descending (live (afterEvictions l (inserted l stat) k))
       ∧ (∀ kept gone,
            kept ∈ live (afterEvictions l (inserted l stat) k) →
            gone ∈ drop (length (inserted l stat) - k) (inserted l stat) →
            cs_mtime gone ≤ cs_mtime kept)
       ∧ (∀ j, (j < k)%nat →
            max < uint64 (sumSizes (take (length (inserted l stat) - j)
                                      (inserted l stat))))
       ∧ liveSize (afterEvictions l (inserted l stat) k) ≤ max)
  ∧ (∀ stats : list chunkStat,
       Forall (λ c, fileSize (cs_size c)) stats →
       totalSize stats = max →
       ∃ l, offerAll (NewLRU max) (ViaAdd <$> stats) = Some l
         ∧ dead l = ∅
         ∧ live l ≡ₚ stats).
Proof.
  intros Hmax. pose proof (NewLRU_inv max Hmax) as Hnew. split.
  - intros stats stat.
    destruct (offerAll_total (ViaAdd <$> stats) _ Hnew) as (l & Hl & Hinv).
    pose proof (offerAll_max _ _ _ Hnew Hl) as Hlmax. simpl in Hlmax.
    destruct (Add_spec l stat Hinv) as (k & Hk & Hadd & Hwhile & Hend).
    pose proof (inserted_descending l stat (inv_sorted _ Hinv)) as Hins.
    exists l, k. rewrite Hlmax in Hwhile, Hend.
    split; [done|]. split; [apply Hinv|]. split; [done|].
    split; [apply inserted_perm, Hinv|]. split; [done|].
    split; [|split; [|split; [|split; [done|done]]]].
    + rewrite fmap_app, offerAll_app, Hl. simpl. by rewrite Hadd.
    + simpl. by apply descending_take.
    + simpl. intros kept gone Hkept Hgone. unfold descending in Hins.
      rewrite <- (take_drop (length (inserted l stat) - k) (inserted l stat))
        in Hins.
      by apply (StronglySorted_app_1_elem_of _ _ _ kept gone) in Hins.
  - intros stats Hsizes Htotal.
    destruct (offerAll_within_budget stats (NewLRU max) Hnew)
      as (l & Hl & Hd & Hp & _).
    + simpl. rewrite (sumSizes_fileSize _ Hsizes). lia.
    + exists l. done.
Qed.

Lemma C2_witness :
  (∃ l k,
     offerAll (NewLRU 10) (ViaAdd <$> [chunkA]) = Some l
     ∧ descending (live l)
     ∧ descending (inserted l chunkB)
     ∧ inserted l chunkB ≡ₚ chunkB :: live l
     ∧ (k ≤ length (inserted l chunkB))%nat
     ∧ offerAll (NewLRU 10) (ViaAdd <$> ([chunkA] ++ [chunkB]))
       = Some (afterEvictions l (inserted l chunkB) k)
     ∧ descending (live (afterEvictions l (inserted l chunkB) k))
     ∧ (∀ kept gone,
          kept ∈ live (afterEvictions l (inserted l chunkB) k) →
          gone ∈ drop (length (inserted l chunkB) - k) (inserted l chunkB) →
          cs_mtime gone ≤ cs_mtime kept)
     ∧ (∀ j, (j < k)%nat →
          10 < uint64 (sumSizes (take (length (inserted l chunkB) - j)
                                   (inserted l chunkB))))
     ∧ liveSize (afterEvictions l (inserted l chunkB) k) ≤ 10)
  ∧ (∃ l, offerAll (NewLRU 10) (ViaAdd <$> [chunkA; chunkC]) = Some l
       ∧ dead l = ∅
       ∧ live l ≡ₚ [chunkA; chunkC]).
Proof.
  destruct (C2_add_keeps_order_and_evicts_over_budget 10) as [Hstep Hfit].
  - unfold is_uint64. lia.
  - split.
    + apply (Hstep [chunkA] chunkB).
    + apply (Hfit [chunkA; chunkC]).
      * repeat constructor; unfold fileSize; simpl; lia.
      * reflexivity.
Defined.

(** ** Where the offered ids end up *)

Lemma afterEvictions_ids l ins k id :
  (id ∈ liveIds (afterEvictions l ins k) ∨ id ∈ dead (afterEvictions l ins k))
  ↔ (id ∈ cs_id <$> ins) ∨ id ∈ dead l.
Proof.
  unfold liveIds, afterEvictions. simpl.
  rewrite elem_of_union, elem_of_list_to_set.
  assert (id ∈ cs_id <$> ins
          ↔ id ∈ cs_id <$> take (length ins - k) ins
            ∨ id ∈ cs_id <$> drop (length ins - k) ins) as ->
    by (by rewrite <- elem_of_app, <- fmap_app, take_drop).
  tauto.
Qed.

Lemma offer_ids l o l' :
  lru_inv l → offer l o = Some l' →
  ∀ id, (id ∈ liveIds l' ∨ id ∈ dead l')
        ↔ (id = cs_id (offered o) ∨ id ∈ liveIds l ∨ id ∈ dead l).
Proof.
  intros Hinv Ho id. destruct o as [s|s]; simpl in *.
  - destruct (Add_spec l s Hinv) as (k & _ & Hk & _). rewrite Hk in Ho.
    injection Ho as <-. rewrite afterEvictions_ids.
    rewrite (inserted_perm l s (inv_sorted _ Hinv)). unfold liveIds.
    rewrite fmap_cons, elem_of_cons. tauto.
  - injection Ho as <-. unfold liveIds, AddDead. simpl.
    rewrite elem_of_union, elem_of_singleton. tauto.
Qed.

Lemma offerAll_ids os : ∀ l l',
  lru_inv l → offerAll l os = Some l' →
  ∀ id, (id ∈ liveIds l' ∨ id ∈ dead l')
        ↔ (id ∈ offeredIds os ∨ id ∈ liveIds l ∨ id ∈ dead l).
Proof.
  induction os as [|o os IH]; intros l l' Hinv; simpl.
  - intros [= <-] id. unfold offeredIds. simpl. rewrite elem_of_nil. tauto.
  - destruct (offer l o) as [l1|] eqn:Ho; [|done]. intros Hl' id.
    rewrite (IH l1 l' (offer_inv _ _ _ Hinv Ho) Hl' id).
    rewrite (offer_ids l o l1 Hinv Ho id).
    unfold offeredIds. simpl. rewrite elem_of_cons. tauto.
Qed.

(** [dead] only grows. *)
Lemma offer_dead_mono l o l' id :
  lru_inv l → offer l o = Some l' → id ∈ dead l → id ∈ dead l'.
Proof.
  intros Hinv Ho Hid. destruct o as [s|s]; simpl in *.
  - destruct (Add_spec l s Hinv) as (k & _ & Hk & _). rewrite Hk in Ho.
    injection Ho as <-. simpl. apply elem_of_union. by right.
  - injection Ho as <-. simpl. apply elem_of_union. by right.
Qed.

Lemma offerAll_dead_mono os : ∀ l l' id,
  lru_inv l → offerAll l os = Some l' → id ∈ dead l → id ∈ dead l'.
Proof.
  induction os as [|o os IH]; intros l l' id Hinv; simpl.
  - by intros [= <-].
  - destruct (offer l o) as [l1|] eqn:Ho; [|done]. intros Hl' Hid.
    eapply IH; [by eapply offer_inv|done|by eapply offer_dead_mono].
Qed.

Lemma offer_disjoint l o l' :
  lru_inv l → offer l o = Some l' →
  NoDup (liveIds l) → (∀ id, id ∈ liveIds l → id ∉ dead l) →
  cs_id (offered o) ∉ liveIds l → cs_id (offered o) ∉ dead l →
  NoDup (liveIds l') ∧ (∀ id, id ∈ liveIds l' → id ∉ dead l').
Proof.
  intros Hinv Ho Hnd Hdisj Hfl Hfd. destruct o as [s|s]; simpl in *.
  - destruct (Add_spec l s Hinv) as (k & _ & Hk & _). rewrite Hk in Ho.
    injection Ho as <-.
    assert (NoDup (cs_id <$> inserted l s)) as Hins.
    { rewrite (inserted_perm l s (inv_sorted _ Hinv)). rewrite fmap_cons.
      by apply NoDup_cons. }
    assert (∀ id, id ∈ cs_id <$> inserted l s → id ∉ dead l) as Hinsd.
    { intros id. rewrite (inserted_perm l s (inv_sorted _ Hinv)).
      rewrite fmap_cons, elem_of_cons. intros [-> | Hid]; [done|by apply Hdisj]. }
    rewrite <- (take_drop (length (inserted l s) - k) (inserted l s)) in Hins, Hinsd.
    rewrite fmap_app in Hins, Hinsd. apply NoDup_app in Hins as (Ht & Htd & _).
    unfold liveIds, afterEvictions. simpl. split; [done|].
    intros id Hid. rewrite elem_of_union, elem_of_list_to_set.
    intros [Hgone | Hdead]; [by eapply Htd|].
    eapply Hinsd; [|done]. apply elem_of_app. by left.
  - injection Ho as <-. unfold liveIds, AddDead. simpl. split; [done|].
    intros id Hid. rewrite elem_of_union, elem_of_singleton.
    intros [-> | Hdead]; [done|]. by eapply Hdisj.
Qed.

Lemma offerAll_disjoint os : ∀ l l',
  lru_inv l → offerAll l os = Some l' →
  NoDup (liveIds l) → (∀ id, id ∈ liveIds l → id ∉ dead l) →
  NoDup (offeredIds os) →
  (∀ id, id ∈ offeredIds os → (id ∉ liveIds l) ∧ (id ∉ dead l)) →
  NoDup (liveIds l') ∧ (∀ id, id ∈ liveIds l' → id ∉ dead l').
Proof.
  induction os as [|o os IH]; intros l l' Hinv; simpl.
  - by intros [= <-].
  - destruct (offer l o) as [l1|] eqn:Ho; [|done].
    intros Hl' Hnd Hdisj Hnew Hfresh.
    unfold offeredIds in Hnew, Hfresh. simpl in Hnew, Hfresh.
    fold (offeredIds os) in Hnew, Hfresh.
    apply NoDup_cons in Hnew as [Hhd Htl].
    destruct (Hfresh (cs_id (offered o))) as [Hfl Hfd]; [apply elem_of_cons; by left|].
    destruct (offer_disjoint l o l1 Hinv Ho Hnd Hdisj Hfl Hfd) as [Hnd1 Hdisj1].
    apply (IH l1 l' (offer_inv _ _ _ Hinv Ho) Hl' Hnd1 Hdisj1 Htl).
    intros id Hid.
    assert (¬ (id ∈ liveIds l1 ∨ id ∈ dead l1)) as Hn; [|tauto].
    rewrite (offer_ids l o l1 Hinv Ho id). intros [-> | Hold]; [done|].
    destruct (Hfresh id); [apply elem_of_cons; by right|]. tauto.
Qed.

(** C3, as amended.  Once all chunks have been offered, through [Add] or
    [AddDead], [liveSize] is at most [liveSizeMax] and every offered id is
    in [live] or in [dead]; when no id is offered twice it is in exactly
    one of them. *)
Theorem C3_budget_and_partition (max : Z) (os : list Offer) :
  is_uint64 max →
  ∃ l, offerAll (NewLRU max) os = Some l
    ∧ liveSize l ≤ liveSizeMax l
    ∧ (∀ id, id ∈ offeredIds os ↔ (id ∈ liveIds l ∨ id ∈ dead l))
    ∧ (NoDup (offeredIds os) → exactly_one os l).
Proof.
  intros Hmax. pose proof (NewLRU_inv max Hmax) as Hnew.
  destruct (offerAll_total os _ Hnew) as (l & Hl & Hinv).
  exists l. split; [done|]. split; [apply Hinv|].
  assert (∀ id, id ∈ offeredIds os ↔ (id ∈ liveIds l ∨ id ∈ dead l)) as Hids.
  { intros id. rewrite (offerAll_ids os _ l Hnew Hl id).
    unfold liveIds. simpl. rewrite elem_of_nil, elem_of_empty. tauto. }
  split; [done|]. intros Hnd id Hid. split; [by apply Hids|].
  destruct (offerAll_disjoint os _ l Hnew Hl) as [_ Hdisj]; simpl.
  - constructor.
  - intros ?. unfold liveIds. simpl. by rewrite elem_of_nil.
  - done.
  - intros ? _. unfold liveIds. simpl. rewrite elem_of_nil, elem_of_empty. tauto.
  - intros [Hl1 Hd1]. by eapply Hdisj.
Qed.

Lemma C3_witness :
  ∃ l, offerAll (NewLRU 10) [ViaAdd chunkA; ViaAddDead chunkB; ViaAdd chunkC] = Some l
    ∧ liveSize l ≤ liveSizeMax l
    ∧ (∀ id, id ∈ offeredIds [ViaAdd chunkA; ViaAddDead chunkB; ViaAdd chunkC]
             ↔ (id ∈ liveIds l ∨ id ∈ dead l))
    ∧ exactly_one [ViaAdd chunkA; ViaAddDead chunkB; ViaAdd chunkC] l.
Proof.
  destruct (C3_budget_and_partition 10
              [ViaAdd chunkA; ViaAddDead chunkB; ViaAdd chunkC])
    as (l & Hl & Hsize & Hids & Hone).
  - unfold is_uint64. lia.
  - exists l. split; [done|]. split; [done|]. split; [done|].
    apply Hone. apply (bool_decide_unpack _). by vm_compute.
Defined.

(** ** The chunk walk as a sequence of offers *)

Lemma walkStoreFn_step proxy st ev :
  match walkStoreFn proxy st ev with
  | Continue st' =>
      match classify proxy ev with
      | Some o => offer (sw_lru st) o = Some (sw_lru st')
      | None => sw_lru st' = sw_lru st
      end
  | Stop _ => classify proxy ev = None
  | Panic => ∃ o, classify proxy ev = Some o ∧ offer (sw_lru st) o = None
  end.
Proof.
  destruct ev as [path info | path err]; simpl.
  - destruct (fi_IsDir info); simpl; [done|].
    destruct (HasPrefix (fi_Name info) ".tmp"); simpl; [done|].
    destruct (String.eqb (Ext (fi_Name info)) CompressedChunkExt); simpl; [|done].
    destruct (ChunkIDFromString _) as [err | id]; [done|].
    destruct (GetChunk proxy id) as [err | data]; simpl; [done|].
    destruct (Add (sw_lru st) _) as [lru'|] eqn:Hadd; simpl; [done|].
    eexists. split; [done|]. done.
  - by destruct (is_ErrNotExist err).
Qed.

Lemma Walk_store_offers proxy evs : ∀ st st',
  Walk (walkStoreFn proxy) st evs = Continue st' →
  offerAll (sw_lru st) (offersOf proxy evs) = Some (sw_lru st').
Proof.
  induction evs as [|ev evs IH]; intros st st'; simpl.
  - by intros [= <-].
  - pose proof (walkStoreFn_step proxy st ev) as Hstep.
    destruct (walkStoreFn proxy st ev) as [st1 | err |]; [|done|done].
    intros Hwalk. specialize (IH _ _ Hwalk). unfold offersOf in *. simpl.
    destruct (classify proxy ev) as [o|]; simpl.
    + by rewrite Hstep.
    + by rewrite <- Hstep.
Qed.

Lemma Walk_store_no_panic proxy evs : ∀ st,
  lru_inv (sw_lru st) → Walk (walkStoreFn proxy) st evs ≠ Panic.
Proof.
  induction evs as [|ev evs IH]; intros st Hinv; simpl; [done|].
  pose proof (walkStoreFn_step proxy st ev) as Hstep.
  destruct (walkStoreFn proxy st ev) as [st1 | err |]; [|done|].
  - apply IH. destruct (classify proxy ev) as [o|].
    + by eapply offer_inv.
    + by rewrite Hstep.
  - destruct Hstep as (o & _ & Ho).
    destruct (offer_total (sw_lru st) o Hinv) as [l' Hl']. congruence.
Qed.

Lemma maxCacheSize_range proxy : is_uint64 (maxCacheSize proxy).
Proof. apply uint64_range. Qed.

Lemma walkStore_offers proxy sw :
  walkStore proxy = Continue sw →
  offerAll (NewLRU (maxCacheSize proxy)) (offersOf proxy (storeFiles proxy))
  = Some (sw_lru sw).
Proof. intros Hw. by apply (Walk_store_offers _ _ _ _ Hw). Qed.

Lemma walkStore_inv proxy sw :
  walkStore proxy = Continue sw → lru_inv (sw_lru sw).
Proof.
  intros Hw. apply walkStore_offers in Hw.
  destruct (offerAll_total (offersOf proxy (storeFiles proxy)) _
              (NewLRU_inv _ (maxCacheSize_range proxy))) as (l & Hl & Hinv).
  congruence.
Qed.

Lemma gcOnce_completed proxy now lru deadIndices effs :
  gcOnce proxy now = Completed lru deadIndices effs →
  ∃ sw iw,
    walkStore proxy = Continue sw ∧ lru = sw_lru sw
    ∧ walkIndices proxy lru now = Continue iw
    ∧ deadIndices = iw_deadIndices iw
    ∧ effs = (OsRemove <$> elements deadIndices)
               ++ (RemoveChunk <$> elements (dead lru)).
Proof.
  unfold gcOnce. destruct (walkStore proxy) as [sw | |]; [|done|done].
  destruct (walkIndices proxy (sw_lru sw) now) as [iw | |] eqn:Hi; [|done|done].
  intros [= <- <- <-]. by exists sw, iw.
Qed.

(** C3 as stated fails when two files of the chunk directory carry the
    same id: both are offered, the older one is evicted, the fresher one
    stays, and the id is both live and dead. *)
Lemma C3_counterexample :
  offeredIds (offersOf stray (storeFiles stray)) = [idOf 1; idOf 1]
  ∧ ∃ sw, walkStore stray = Continue sw
      ∧ ¬ exactly_one (offersOf stray (storeFiles stray)) (sw_lru sw).
Proof.
  split; [vm_compute; reflexivity|].
  destruct (walkStore stray) as [sw | |] eqn:Hsw;
    [|vm_compute in Hsw; discriminate..].
  exists sw. split; [done|]. intros Hone.
  destruct (Hone (idOf 1)) as [_ Hnot].
  - apply (list_elem_of_lookup_2 _ 0%nat). vm_compute. reflexivity.
  - apply Hnot. vm_compute in Hsw. injection Hsw as <-. split.
    + apply (list_elem_of_lookup_2 _ 0%nat). vm_compute. reflexivity.
    + apply (bool_decide_unpack _). vm_compute. exact I.
Qed.

(** ** The referential check *)

Lemma someChunkDead_false lru chunks :
  someChunkDead lru chunks = false
  ↔ Forall (λ c, ic_ID c ∉ dead lru) chunks.
Proof.
  induction chunks as [|c chunks IH]; simpl.
  - split; [constructor|done].
  - unfold IsDead. rewrite Forall_cons. case_bool_decide; [|tauto].
    split; [done|]. intros [? _]. done.
Qed.

Lemma someChunkDead_true lru chunks :
  someChunkDead lru chunks = true
  ↔ ∃ c, c ∈ chunks ∧ ic_ID c ∈ dead lru.
Proof.
  induction chunks as [|c chunks IH]; simpl.
  - split; [done|]. intros (c & Hc & _). by apply elem_of_nil in Hc.
  - unfold IsDead. case_bool_decide as Hd.
    + split; [|done]. intros _. exists c. split; [by left|done].
    + rewrite IH. split.
      * intros (c' & Hc' & Hd'). exists c'. split; [by right|done].
      * intros (c' & Hc' & Hd'). apply elem_of_cons in Hc' as [-> | Hc']; [done|].
        by exists c'.
Qed.

(** ** The index walk, entry by entry *)

Lemma walkIndicesFn_skipped proxy lru t st path info :
  examined t (Visit path info) = false →
  walkIndicesFn proxy lru t st (Visit path info) = Continue st.
Proof.
  simpl. destruct (fi_IsDir info); simpl; [done|]. by intros ->.
Qed.

Lemma walkIndicesFn_examined proxy lru t st path info index :
  examined t (Visit path info) = true →
  (String.length (indexPath proxy) ≤ String.length path)%nat →
  GetIndex proxy (relName proxy path) = inr index →
  walkIndicesFn proxy lru t st (Visit path info)
  = Continue
      {| iw_deadIndices :=
           (let marked := integrityWorker proxy (iw_deadIndices st) path index in
            if decide (length (Chunks index) = 0%nat) then {[ path ]} ∪ marked
            else if someChunkDead lru (Chunks index) then {[ path ]} ∪ marked
            else marked);
         iw_indicesCount := int64 (iw_indicesCount st + 1);
         iw_inflatedSize := int64 (iw_inflatedSize st + Length index) |}.
Proof.
  simpl. destruct (fi_IsDir info); simpl; [done|]. intros -> Hlen Hget. simpl.
  rewrite bool_decide_eq_false_2 by lia. by rewrite Hget.
Qed.

Lemma never_offered_not_dead proxy sw id :
  walkStore proxy = Continue sw →
  id ∉ offeredIds (offersOf proxy (storeFiles proxy)) →
  id ∉ dead (sw_lru sw).
Proof.
  intros Hsw Hid Hdead.
  pose proof (walkStore_offers proxy sw Hsw) as Hoff.
  pose proof (NewLRU_inv _ (maxCacheSize_range proxy)) as Hnew.
  destruct (proj1 (offerAll_ids _ _ _ Hnew Hoff id)) as [Ho | [Hl | Hd]].
  - by right.
  - done.
  - unfold liveIds in Hl. simpl in Hl. by apply elem_of_nil in Hl.
  - simpl in Hd. by apply elem_of_empty in Hd.
Qed.

(** C10. A chunk id that was never offered to the classifier during the
    pass is not dead for [IsDead]; so the referential check finds no dead
    chunk in an index all of whose chunks are absent from the chunk walk,
    and the index walk marks such an index, when it has chunks, only if an
    integrity worker does. *)
Theorem C10_never_offered_is_not_dead (proxy : Proxy) (now : Z)
    (lru : chunkLRU) (deadIndices : gset string) (effs : list Effect) :
  gcOnce proxy now = Completed lru deadIndices effs →
  (∀ id, id ∉ offeredIds (offersOf proxy (storeFiles proxy)) →
     IsDead lru id = false)
  ∧ (∀ chunks,
       Forall (λ c, ic_ID c ∉ offeredIds (offersOf proxy (storeFiles proxy)))
         chunks →
       someChunkDead lru chunks = false)
  ∧ (∀ st path info index t,
       examined t (Visit path info) = true →
       (String.length (indexPath proxy) ≤ String.length path)%nat →
       GetIndex proxy (relName proxy path) = inr index →
       Chunks index ≠ [] →
       Forall (λ c, ic_ID c ∉ offeredIds (offersOf proxy (storeFiles proxy)))
         (Chunks index) →
       walkIndicesFn proxy lru t st (Visit path info)
       = Continue
           {| iw_deadIndices :=
                integrityWorker proxy (iw_deadIndices st) path index;
              iw_indicesCount := int64 (iw_indicesCount st + 1);
              iw_inflatedSize := int64 (iw_inflatedSize st + Length index) |}).
Proof.
  intros Hgc. apply gcOnce_completed in Hgc as (sw & iw & Hsw & -> & _).
  assert (∀ chunks,
    Forall (λ c, ic_ID c ∉ offeredIds (offersOf proxy (storeFiles proxy)))
      chunks →
    someChunkDead (sw_lru sw) chunks = false) as Hcheck.
  { intros chunks Hall. apply someChunkDead_false.
    eapply Forall_impl; [exact Hall|]. simpl. intros c Hc.
    by eapply never_offered_not_dead. }
  split; [|split; [done|]].
  - intros id Hid. unfold IsDead. apply bool_decide_eq_false.
    by eapply never_offered_not_dead.
  - intros st path info index t Hex Hlen Hget Hne Hall.
    rewrite (walkIndicesFn_examined _ _ _ _ _ _ index) by done.
    simpl. rewrite (Hcheck _ Hall).
    destruct (decide (length (Chunks index) = 0%nat)) as [H0 | _]; [|done].
    by apply nil_length_inv in H0.
Qed.

Lemma C10_witness :
  ∃ lru deadIndices effs,
    gcOnce demo t0 = Completed lru deadIndices effs
    ∧ (∀ id, id ∉ offeredIds (offersOf demo (storeFiles demo)) →
         IsDead lru id = false)
    ∧ (∀ chunks,
         Forall (λ c, ic_ID c ∉ offeredIds (offersOf demo (storeFiles demo)))
           chunks →
         someChunkDead lru chunks = false)
    ∧ (∀ st path info index t,
         examined t (Visit path info) = true →
         (String.length (indexPath demo) ≤ String.length path)%nat →
         GetIndex demo (relName demo path) = inr index →
         Chunks index ≠ [] →
         Forall (λ c, ic_ID c ∉ offeredIds (offersOf demo (storeFiles demo)))
           (Chunks index) →
         walkIndicesFn demo lru t st (Visit path info)
         = Continue
             {| iw_deadIndices :=
                  integrityWorker demo (iw_deadIndices st) path index;
                iw_indicesCount := int64 (iw_indicesCount st + 1);
                iw_inflatedSize := int64 (iw_inflatedSize st + Length index) |}).
Proof.
  destruct (gcOnce demo t0) as [| | |lru deadIndices effs] eqn:Hgc;
    [by vm_compute in Hgc..|].
  exists lru, deadIndices, effs. split; [done|].
  exact (C10_never_offered_is_not_dead demo t0 lru deadIndices effs Hgc).
Defined.

(** ** Errors of the chunk walk *)

(** The branch [err == os.ErrNotExist] is taken for the sentinel only. *)
Lemma walkStoreFn_error proxy st path err :
  walkStoreFn proxy st (VisitErr path err)
  = if is_ErrNotExist err then Continue st else Stop err.
Proof. done. Qed.

Lemma Walk_stop_at {S : Type} (fn : S → WalkEvent → Step S) evs1 ev evs2 st st1 err :
  Walk fn st evs1 = Continue st1 →
  fn st1 ev = Stop err →
  Walk fn st (evs1 ++ ev :: evs2) = Stop err.
Proof.
  revert st. induction evs1 as [|e evs1 IH]; intros st; simpl.
  - intros [= ->] ->. done.
  - destruct (fn st e); [|done|done]. apply IH.
Qed.

(** C5 on the code.  The not-found error that [filepath.Walk] reports for
    an entry deleted under it is the [*fs.PathError] of [os.Lstat]; it is
    a not-found error for [os.IsNotExist], it is not the value
    [os.ErrNotExist], and the callback of the chunk walk returns it: the
    walk stops and the pass aborts.  Only the sentinel itself is
    ignored. *)
Theorem C5_not_found_of_lstat_aborts_pass :
  (∀ proxy st op path,
     IsNotExist (PathError op path ENOENT) = true
     ∧ walkStoreFn proxy st (VisitErr path (PathError op path ENOENT))
       = Stop (PathError op path ENOENT))
  ∧ (∀ proxy st path,
       walkStoreFn proxy st (VisitErr path ErrNotExist) = Continue st)
  ∧ gcOnce raced t0
    = WalkStoreFailed
        (PathError "lstat" (nameFromID "/store" (idOf 3)) ENOENT).
Proof.
  split; [done|]. split; [done|]. by vm_compute.
Qed.

(** ** Which entries the index walk examines *)

Lemma examined_iff t path info :
  examined t (Visit path info) = true
  ↔ fi_IsDir info = false
    ∧ (Ext path = ".nar" ∨ Ext path = ".narinfo" ∨ fi_ModTime info < t).
Proof.
  simpl. rewrite andb_true_iff, !orb_true_iff, negb_true_iff.
  rewrite !String.eqb_eq, bool_decide_eq_true. tauto.
Qed.

(** A file is examined as soon as its mtime is below [now] plus ten
    minutes, whatever its kind. *)
Lemma examined_below_cutoff now path info :
  fi_IsDir info = false →
  fi_ModTime info < now + 10 * Minute →
  examined (now + 10 * Minute) (Visit path info) = true.
Proof. intros Hdir Hold. apply examined_iff. auto. Qed.

(** C4 on the code.  [ignoreBeforeTime] is [now] plus ten minutes, so a
    file of an unknown kind is examined as soon as its mtime is below
    [now + 10 minutes]: the file [x.foo], written one minute before the
    pass, is loaded, found without chunks, marked dead and removed. *)
Theorem C4_fresh_unknown_file_is_examined :
  t0 - 10 * Minute < t0 - 1 * Minute
  ∧ Ext "/index/x.foo" = ".foo"
  ∧ examined (t0 + 10 * Minute)
      (indexFile "/index/" "x.foo" (t0 - 1 * Minute)) = true
  ∧ deadIndicesOf (gcOnce fresh_unknown t0) = Some {[ "/index/x.foo" ]}
  ∧ effects (gcOnce fresh_unknown t0) = [OsRemove "/index/x.foo"].
Proof. split_and!; vm_compute; reflexivity. Qed.

(** What C4 says and the code does: a file of a known kind is examined
    at any age, and a file of an unknown kind is skipped exactly when its
    mtime is not below [ignoreBeforeTime]. *)
Lemma examined_known_kind t path info :
  fi_IsDir info = false →
  Ext path = ".nar" ∨ Ext path = ".narinfo" →
  examined t (Visit path info) = true.
Proof. intros Hdir Hext. apply examined_iff. tauto. Qed.

Lemma skipped_unknown_kind proxy lru now st path info :
  Ext path ≠ ".nar" → Ext path ≠ ".narinfo" →
  now + 10 * Minute ≤ fi_ModTime info →
  walkIndicesFn proxy lru (now + 10 * Minute) st (Visit path info)
  = Continue st.
Proof.
  intros Hnar Hinfo Hnew. apply walkIndicesFn_skipped.
  destruct (examined _ _) eqn:Hex; [|done].
  apply examined_iff in Hex as [_ [? | [? | ?]]]; [done|done|lia].
Qed.

(** C1 on the code.  The index [old.caibx] refers to a chunk that no file
    of the store carries and that [GetChunk] does not find; the pass
    completes, marks no index and removes nothing, so the index survives
    with its reference to an absent chunk. *)
Theorem C1_index_on_absent_chunk_survives :
  GetIndex dangling (relName dangling "/index/old.caibx")
  = inr (indexOf [idOf 9])
  ∧ (idOf 9 ∉ offeredIds (offersOf dangling (storeFiles dangling)))
  ∧ GetChunk dangling (idOf 9) = inl (ErrString "chunk missing")
  ∧ examined (t0 + 10 * Minute)
      (indexFile "/index/" "old.caibx" (30 * Minute)) = true
  ∧ deadIndicesOf (gcOnce dangling t0) = Some ∅
  ∧ effects (gcOnce dangling t0) = [].
Proof.
  split; [by vm_compute|]. split.
  { apply (bool_decide_unpack _). by vm_compute. }
  split; [by vm_compute|]. split; [by vm_compute|].
  split; by vm_compute.
Qed.

(** ** Aborted passes and the order of deletions *)

(** C7. When the chunk walk or the index walk returns an error, the pass
    ends there: it issues no deletion, and the store it leaves is the
    store it found. *)
Theorem C7_aborted_pass_deletes_nothing (proxy : Proxy) (now : Z) :
  (∀ err,
     walkStore proxy = Stop err →
     gcOnce proxy now = WalkStoreFailed err
     ∧ effects (gcOnce proxy now) = []
     ∧ afterPass proxy now = proxy)
  ∧ (∀ sw err,
       walkStore proxy = Continue sw →
       walkIndices proxy (sw_lru sw) now = Stop err →
       gcOnce proxy now = WalkIndicesFailed err
       ∧ effects (gcOnce proxy now) = []
       ∧ afterPass proxy now = proxy).
Proof.
  split.
  - intros err Hs. unfold afterPass, gcOnce. by rewrite Hs.
  - intros sw err Hs Hi. unfold afterPass, gcOnce. by rewrite Hs, Hi.
Qed.

Lemma C7_witness :
  (gcOnce raced t0
   = WalkStoreFailed (PathError "lstat" (nameFromID "/store" (idOf 3)) ENOENT)
   ∧ effects (gcOnce raced t0) = []
   ∧ afterPass raced t0 = raced)
  ∧ (gcOnce unreadable t0
     = WalkIndicesFailed
         (WithMessage "while getting index junk.nar" (ErrString "invalid index"))
     ∧ effects (gcOnce unreadable t0) = []
     ∧ afterPass unreadable t0 = unreadable).
Proof.
  split.
  - apply (proj1 (C7_aborted_pass_deletes_nothing raced t0)). by vm_compute.
  - destruct (walkStore unreadable) as [sw| |] eqn:Hsw;
      [|by vm_compute in Hsw..].
    apply (proj2 (C7_aborted_pass_deletes_nothing unreadable t0) sw);
      [done|].
    vm_compute in Hsw. injection Hsw as <-. by vm_compute.
Defined.

(** C8. In a pass that completes, the deletions are the removal of every
    dead index followed by the removal of every dead chunk: each
    [os.Remove] of an index path comes before each [RemoveChunk]. *)
Theorem C8_indices_removed_before_chunks (proxy : Proxy) (now : Z)
    (lru : chunkLRU) (deadIndices : gset string) (effs : list Effect) :
  gcOnce proxy now = Completed lru deadIndices effs →
  (∀ path, path ∈ deadIndices ↔ OsRemove path ∈ effs)
  ∧ (∀ id, id ∈ dead lru ↔ RemoveChunk id ∈ effs)
  ∧ (∀ i j path id,
       effs !! i = Some (OsRemove path) →
       effs !! j = Some (RemoveChunk id) →
       (i < j)%nat).
Proof.
  intros Hgc. apply gcOnce_completed in Hgc as (sw & iw & _ & _ & _ & _ & ->).
  split; [|split].
  - intros path. rewrite elem_of_app, !list_elem_of_fmap. split.
    + intros Hp. left. exists path. split; [done|]. by rewrite elem_of_elements.
    + intros [(p & [= ->] & Hp) | (id & [=] & _)]. by rewrite <- elem_of_elements.
  - intros id. rewrite elem_of_app, !list_elem_of_fmap. split.
    + intros Hp. right. exists id. split; [done|]. by rewrite elem_of_elements.
    + intros [(p & [=] & _) | (id' & [= ->] & Hp)]. by rewrite <- elem_of_elements.
  - intros i j path id Hi Hj.
    destruct (decide (i < length (OsRemove <$> elements deadIndices))%nat)
      as [Hlt | Hge].
    + destruct (decide (j < length (OsRemove <$> elements deadIndices))%nat)
        as [Hjlt | Hjge]; [|lia].
      rewrite lookup_app_l in Hj by done.
      by apply list_lookup_fmap_Some in Hj as (p & ? & ?).
    + rewrite lookup_app_r in Hi by lia.
      by apply list_lookup_fmap_Some in Hi as (p & ? & ?).
Qed.

Lemma C8_witness :
  ∃ lru deadIndices effs,
    gcOnce demo t0 = Completed lru deadIndices effs
    ∧ effs !! 1%nat = Some (OsRemove "/index/a.nar")
    ∧ effs !! 2%nat = Some (RemoveChunk (idOf 1))
    ∧ (∀ path, path ∈ deadIndices ↔ OsRemove path ∈ effs)
    ∧ (∀ id, id ∈ dead lru ↔ RemoveChunk id ∈ effs)
    ∧ (1 < 2)%nat.
Proof.
  destruct (gcOnce demo t0) as [| | |lru deadIndices effs] eqn:Hgc;
    [by vm_compute in Hgc..|].
  exists lru, deadIndices, effs.
  destruct (C8_indices_removed_before_chunks demo t0 lru deadIndices effs Hgc)
    as (Hidx & Hchunks & Horder).
  vm_compute in Hgc. injection Hgc as <- <- <-.
  split; [done|]. split; [done|]. split; [done|].
  split; [done|]. split; [done|].
  by apply (Horder 1%nat 2%nat "/index/a.nar" (idOf 1)).
Defined.

(** ** The store a pass leaves behind *)

Lemma filter_all {A} (P : A → Prop) `{!∀ x, Decision (P x)} (l : list A) :
  (∀ x, P x) → filter P l = l.
Proof.
  intros HP. induction l as [|x l IH]; [done|].
  by rewrite filter_cons_True, IH.
Qed.

Lemma afterEffects effs : ∀ proxy,
  let proxy' := foldl applyEffect proxy effs in
  CacheSize proxy' = CacheSize proxy
  ∧ storeBase proxy' = storeBase proxy
  ∧ indexPath proxy' = indexPath proxy
  ∧ GetIndex proxy' = GetIndex proxy
  ∧ narReader proxy' = narReader proxy
  ∧ assembleNarinfo proxy' = assembleNarinfo proxy
  ∧ storeFiles proxy'
    = filter (λ ev, ev_path ev ∉ nameFromID (storeBase proxy) <$> removedChunks effs)
        (storeFiles proxy)
  ∧ indexFiles proxy'
    = filter (λ ev, ev_path ev ∉ removedPaths effs) (indexFiles proxy)
  ∧ ∀ id, GetChunk proxy' id
          = if decide (id ∈ removedChunks effs)
            then inl (ErrString "chunk missing")
            else GetChunk proxy id.
Proof.
  induction effs as [|e effs IH]; intros proxy; simpl.
  - split_and!; try done.
    + symmetry. apply filter_all. intros ev. apply not_elem_of_nil.
    + symmetry. apply filter_all. intros ev. apply not_elem_of_nil.
  - destruct (IH (applyEffect proxy e))
      as (Hc & Hb & Hp & Hg & Hn & Ha & Hs & Hi & Hget).
    destruct e as [path | id0]; simpl in *; split_and!; try done.
    + rewrite Hi, list_filter_filter. apply list_filter_iff.
      intros ev. rewrite elem_of_cons. tauto.
    + rewrite Hs, list_filter_filter. apply list_filter_iff.
      intros ev. rewrite elem_of_cons. tauto.
    + intros id. rewrite Hget.
      destruct (decide (id ∈ removedChunks effs)) as [Hin | Hout].
      * rewrite decide_True; [done|]. apply elem_of_cons. by right.
      * destruct (decide (id = id0)) as [-> | Hne].
        -- rewrite decide_True; [done|]. apply elem_of_cons. by left.
        -- rewrite decide_False; [done|]. rewrite elem_of_cons. tauto.
Qed.

Lemma removedPaths_effects (ps : list string) (ids : list ChunkID) :
  removedPaths ((OsRemove <$> ps) ++ (RemoveChunk <$> ids)) = ps.
Proof.
  induction ps as [|path ps IH]; simpl.
  - induction ids as [|id ids IH]; [done|]. exact IH.
  - cbn. f_equal. exact IH.
Qed.

Lemma removedChunks_effects (ps : list string) (ids : list ChunkID) :
  removedChunks ((OsRemove <$> ps) ++ (RemoveChunk <$> ids)) = ids.
Proof.
  induction ps as [|path ps IH]; simpl.
  - induction ids as [|id ids IH]; [done|]. cbn. f_equal. exact IH.
  - exact IH.
Qed.

(** ** What becomes of the chunks handed to [Add] *)

Lemma offer_stats l o l' :
  lru_inv l → offer l o = Some l' →
  (∃ gone, live l ++ adds [o] ≡ₚ live l' ++ gone
           ∧ Forall (λ s, cs_id s ∈ dead l') gone)
  ∧ (∀ s, o = ViaAddDead s → cs_id s ∈ dead l').
Proof.
  intros Hinv Ho. destruct o as [s|s]; simpl in *.
  - destruct (Add_spec l s Hinv) as (k & _ & Hk & _). rewrite Hk in Ho.
    injection Ho as <-. split; [|done].
    exists (drop (length (inserted l s) - k) (inserted l s)). simpl. split.
    + rewrite take_drop, (inserted_perm l s (inv_sorted _ Hinv)).
      by rewrite <- Permutation_cons_append.
    + apply Forall_forall. intros c Hc. apply elem_of_union. left.
      apply elem_of_list_to_set. by apply list_elem_of_fmap_2.
  - injection Ho as <-. split.
    + exists []. simpl. by rewrite !(right_id_L [] (++)).
    + intros s' [= ->]. simpl. apply elem_of_union. left.
      by apply elem_of_singleton.
Qed.

Lemma adds_cons o os : adds (o :: os) = adds [o] ++ adds os.
Proof. by destruct o. Qed.

Lemma offerAll_stats os : ∀ l l',
  lru_inv l → offerAll l os = Some l' →
  (∃ gone, live l ++ adds os ≡ₚ live l' ++ gone
           ∧ Forall (λ s, cs_id s ∈ dead l') gone)
  ∧ (∀ s, ViaAddDead s ∈ os → cs_id s ∈ dead l').
Proof.
  induction os as [|o os IH]; intros l l' Hinv; cbn [offerAll].
  - intros [= <-]. split.
    + by exists [].
    + intros s Hs. by apply elem_of_nil in Hs.
  - destruct (offer l o) as [l1|] eqn:Ho; [|done]. intros Hl'.
    pose proof (offer_inv _ _ _ Hinv Ho) as Hinv1.
    destruct (offer_stats l o l1 Hinv Ho) as [(g1 & Hp1 & Hg1) Hd1].
    destruct (IH l1 l' Hinv1 Hl') as [(g2 & Hp2 & Hg2) Hd2].
    split.
    + exists (g2 ++ g1). split.
      * rewrite adds_cons, (assoc_L (++)), Hp1.
        rewrite <- (assoc_L (++)), (Permutation_app_comm g1), (assoc_L (++)).
        by rewrite Hp2, <- (assoc_L (++)).
      * apply Forall_app. split; [done|].
        eapply Forall_impl; [exact Hg1|]. simpl. intros c Hc.
        by eapply offerAll_dead_mono.
    + intros s Hs. apply elem_of_cons in Hs as [<- | Hs].
      * eapply offerAll_dead_mono; [exact Hinv1|exact Hl'|]. by apply Hd1.
      * by apply Hd2.
Qed.

Lemma sumSizes_sublist l1 l2 : l1 `sublist_of` l2 → sumSizes l1 ≤ sumSizes l2.
Proof.
  induction 1 as [|x l1 l2 _ IH|x l1 l2 _ IH]; simpl; [done|lia|].
  pose proof (uint64_range (cs_size x)) as Hx. unfold is_uint64 in Hx. lia.
Qed.

Lemma adds_sublist os : adds os `sublist_of` (offered <$> os).
Proof.
  induction os as [|o os IH]; [done|].
  destruct o; simpl; by constructor.
Qed.

(** When the sizes of the chunk files add up to less than [2^64], the
    chunks that a sequence of offers leaves out of [dead] fit in the
    budget. *)
Lemma survivors_fit max os l :
  is_uint64 max →
  offerAll (NewLRU max) os = Some l →
  sumSizes (offered <$> os) < 2 ^ 64 →
  sumSizes (filter (λ s, cs_id s ∉ dead l) (adds os)) ≤ max.
Proof.
  intros Hmax Hl Hsmall. pose proof (NewLRU_inv max Hmax) as Hnew.
  destruct (offerAll_total os _ Hnew) as (l0 & Hl0 & Hinv).
  assert (l0 = l) as -> by congruence.
  destruct (offerAll_stats os _ l Hnew Hl) as [(gone & Hp & Hg) _].
  simpl in Hp.
  assert (filter (λ s, cs_id s ∉ dead l) gone = []) as Hnone.
  { clear Hp. induction gone as [|c gone IH]; [done|].
    apply Forall_cons in Hg as [Hc Hg].
    rewrite filter_cons_False by tauto. by apply IH. }
  assert (filter (λ s, cs_id s ∉ dead l) (adds os)
          ≡ₚ filter (λ s, cs_id s ∉ dead l) (live l ++ gone)) as Hf
    by (by rewrite Hp).
  rewrite (sumSizes_perm _ _ Hf), filter_app, Hnone, (right_id_L [] (++)).
  pose proof (sumSizes_sublist _ _ (sublist_filter (λ s, cs_id s ∉ dead l) (live l))) as H1.
  assert (sumSizes (live l) ≤ sumSizes (adds os)) as H2.
  { rewrite (sumSizes_perm _ _ Hp), sumSizes_app.
    pose proof (sumSizes_nonneg gone). lia. }
  pose proof (sumSizes_sublist _ _ (adds_sublist os)) as H3.
  pose proof (sumSizes_nonneg (live l)) as H4.
  pose proof (inv_liveSize _ Hinv) as Hsize.
  pose proof (inv_budget _ Hinv) as Hb.
  rewrite (offerAll_max _ _ _ Hnew Hl) in Hb. simpl in Hb.
  rewrite uint64_small in Hsize by (unfold is_uint64; lia). lia.
Qed.

(** ** The chunk walk of the pass that follows *)

Lemma walkStoreFn_error_iff proxy st ev :
  match walkStoreFn proxy st ev with
  | Stop err => storeWalkError ev = Some err
  | _ => storeWalkError ev = None
  end.
Proof.
  destruct ev as [path info | path err]; simpl.
  - destruct (fi_IsDir info); simpl; [done|].
    destruct (HasPrefix (fi_Name info) ".tmp"); simpl; [done|].
    destruct (String.eqb (Ext (fi_Name info)) CompressedChunkExt); simpl; [|done].
    destruct (ChunkIDFromString _) as [err | id]; [done|].
    destruct (GetChunk proxy id) as [err | data]; simpl; [done|].
    by destruct (Add (sw_lru st) _).
  - by destruct (is_ErrNotExist err).
Qed.

Lemma Walk_store_errors proxy evs : ∀ st st',
  Walk (walkStoreFn proxy) st evs = Continue st' →
  Forall (λ ev, storeWalkError ev = None) evs.
Proof.
  induction evs as [|ev evs IH]; intros st st'; simpl; [by constructor|].
  pose proof (walkStoreFn_error_iff proxy st ev) as Herr.
  destruct (walkStoreFn proxy st ev) as [st1 | err |]; [|done|done].
  intros Hwalk. constructor; [done|]. by eapply IH.
Qed.

Lemma Walk_store_total proxy evs : ∀ st,
  lru_inv (sw_lru st) →
  Forall (λ ev, storeWalkError ev = None) evs →
  ∃ st', Walk (walkStoreFn proxy) st evs = Continue st'.
Proof.
  induction evs as [|ev evs IH]; intros st Hinv Hall; simpl; [by eexists|].
  apply Forall_cons in Hall as [Hev Hall].
  pose proof (walkStoreFn_error_iff proxy st ev) as Herr.
  pose proof (walkStoreFn_step proxy st ev) as Hstep.
  destruct (walkStoreFn proxy st ev) as [st1 | err |].
  - apply IH; [|done]. destruct (classify proxy ev) as [o|].
    + by eapply offer_inv.
    + by rewrite Hstep.
  - congruence.
  - destruct Hstep as (o & _ & Ho).
    destruct (offer_total (sw_lru st) o Hinv) as [l' Hl']. congruence.
Qed.

(** [classify] reads the proxy through [GetChunk] only. *)
Lemma classify_GetChunk proxy proxy' ev :
  classify proxy' ev
  = match classify proxy ev with
    | Some o =>
        Some (match GetChunk proxy' (cs_id (offered o)) with
              | inl _ => ViaAddDead (offered o)
              | inr _ => ViaAdd (offered o)
              end)
    | None => None
    end.
Proof.
  destruct ev as [path info | path err]; simpl; [|done].
  destruct (fi_IsDir info || HasPrefix (fi_Name info) ".tmp"
            || negb (String.eqb (Ext (fi_Name info)) CompressedChunkExt));
    [done|].
  destruct (ChunkIDFromString _) as [err | id]; [done|].
  by destruct (GetChunk proxy id).
Qed.

Lemma second_offers (proxy proxy' : Proxy) (D : gset ChunkID)
    (keep : WalkEvent → Prop) `{!∀ ev, Decision (keep ev)} (evs : list WalkEvent) :
  (∀ id, id ∉ D → GetChunk proxy' id = GetChunk proxy id) →
  (∀ ev o, ev ∈ evs → keep ev → classify proxy ev = Some o →
           cs_id (offered o) ∉ D) →
  (∀ ev s, ev ∈ evs → classify proxy ev = Some (ViaAddDead s) → cs_id s ∈ D) →
  ∃ surv,
    offersOf proxy' (filter keep evs) = ViaAdd <$> surv
    ∧ surv `sublist_of` filter (λ s, cs_id s ∉ D) (adds (offersOf proxy evs)).
Proof.
  intros Hget. induction evs as [|ev evs IH]; intros Hkeep HaddDead.
  - exists []. done.
  - destruct IH as (surv & Hsurv & Hsub).
    { intros ev' o Hin. apply Hkeep. by right. }
    { intros ev' s Hin. apply HaddDead. by right. }
    specialize (Hkeep ev). specialize (HaddDead ev).
    unfold offersOf in *. rewrite filter_cons.
    destruct (decide (keep ev)) as [Hk | Hk].
    + cbn [omap list_omap]. rewrite (classify_GetChunk proxy proxy' ev).
      destruct (classify proxy ev) as [o|] eqn:Hc; [|by exists surv].
      assert (cs_id (offered o) ∉ D) as Hid by (apply (Hkeep o); [by left|done..]).
      rewrite (Hget _ Hid).
      destruct o as [s|s]; simpl in *.
      * destruct (GetChunk proxy (cs_id s)) as [e|d] eqn:Hg.
        -- exfalso. clear -Hc Hg. destruct ev as [path info | path err]; [|done].
           simpl in Hc.
           destruct (fi_IsDir info || HasPrefix (fi_Name info) ".tmp"
                     || negb (String.eqb (Ext (fi_Name info)) CompressedChunkExt));
             [done|].
           destruct (ChunkIDFromString _) as [err | id]; [done|].
           destruct (GetChunk proxy id) eqn:Hg'; [done|].
           injection Hc as <-. simpl in Hg. congruence.
        -- exists (s :: surv). split; [simpl; by rewrite Hsurv|].
           rewrite filter_cons_True by done. by constructor.
      * exfalso. apply Hid. apply (HaddDead s); [by left|done].
    + cbn [omap list_omap].
      destruct (classify proxy ev) as [[s|s]|] eqn:Hc; simpl.
      * exists surv. split; [done|]. rewrite filter_cons.
        destruct (decide (cs_id s ∉ D)); [by constructor|done].
      * by exists surv.
      * by exists surv.
Qed.

(** ** The index walk of the pass that follows *)

Lemma integrityWorker_fails proxy deadIndices path index :
  integrityWorker proxy deadIndices path index
  = if integrityFails proxy path index then {[ path ]} ∪ deadIndices
    else deadIndices.
Proof.
  unfold integrityWorker, integrityFails.
  destruct (String.eqb (Ext path) ".nar").
  - destruct (checkNarContents proxy index) as [e|]; [|done].
    by rewrite bool_decide_eq_true_2 by (by eexists).
  - destruct (String.eqb (Ext path) ".narinfo"); [|done].
    destruct (assembleNarinfo proxy (GetChunk proxy) index) as [e|]; [|done].
    by rewrite bool_decide_eq_true_2 by (by eexists).
Qed.

Lemma walkIndicesFn_marks proxy lru t st path info index :
  examined t (Visit path info) = true →
  (String.length (indexPath proxy) ≤ String.length path)%nat →
  GetIndex proxy (relName proxy path) = inr index →
  ∃ st', walkIndicesFn proxy lru t st (Visit path info) = Continue st'
    ∧ iw_deadIndices st'
      = if marks proxy lru path index then {[ path ]} ∪ iw_deadIndices st
        else iw_deadIndices st.
Proof.
  intros Hex Hlen Hget.
  rewrite (walkIndicesFn_examined _ _ _ _ _ _ index) by done.
  eexists. split; [done|]. simpl. rewrite integrityWorker_fails. unfold marks.
  destruct (decide (length (Chunks index) = 0%nat)) as [H0 | H0].
  - apply nil_length_inv in H0. rewrite bool_decide_eq_true_2 by done. simpl.
    destruct (integrityFails proxy path index); [|done].
    by rewrite (assoc_L (∪)), (idemp_L (∪)).
  - rewrite bool_decide_eq_false_2
      by (intros Hnil; by rewrite Hnil in H0).
    simpl. destruct (someChunkDead lru (Chunks index)); simpl; [|done].
    destruct (integrityFails proxy path index); [|done].
    by rewrite (assoc_L (∪)), (idemp_L (∪)).
Qed.

Lemma walkIndicesFn_continue proxy lru t st ev st' :
  walkIndicesFn proxy lru t st ev = Continue st' →
  match ev with
  | VisitErr _ _ => False
  | Visit path info =>
      if examined t ev then
        (String.length (indexPath proxy) ≤ String.length path)%nat
        ∧ ∃ index, GetIndex proxy (relName proxy path) = inr index
      else True
  end.
Proof.
  destruct ev as [path info | path err]; [|done]. simpl.
  destruct (fi_IsDir info); simpl; [done|].
  destruct (String.eqb (Ext path) ".nar" || String.eqb (Ext path) ".narinfo"
            || bool_decide (fi_ModTime info < t)); simpl; [|done].
  case_bool_decide as Hlen; [done|].
  destruct (GetIndex proxy (relName proxy path)) as [err | index]; [done|].
  intros _. split; [lia|]. by eexists.
Qed.

Lemma Walk_indices_facts proxy lru t evs : ∀ st st',
  Walk (walkIndicesFn proxy lru t) st evs = Continue st' →
  iw_deadIndices st ⊆ iw_deadIndices st'
  ∧ Forall (λ ev,
      match ev with
      | VisitErr _ _ => False
      | Visit path info =>
          examined t ev = true →
          (String.length (indexPath proxy) ≤ String.length path)%nat
          ∧ ∃ index, GetIndex proxy (relName proxy path) = inr index
              ∧ (path ∉ iw_deadIndices st' → marks proxy lru path index = false)
      end) evs.
Proof.
  induction evs as [|ev evs IH]; intros st st'; simpl.
  - intros [= <-]. split; [done|constructor].
  - destruct (walkIndicesFn proxy lru t st ev) as [st1 | |] eqn:Hstep;
      [|done|done].
    intros Hwalk. destruct (IH _ _ Hwalk) as [Hsub Hall].
    pose proof (walkIndicesFn_continue _ _ _ _ _ _ Hstep) as Hev.
    destruct ev as [path info | path err]; [|done].
    destruct (examined t (Visit path info)) eqn:Hex.
    + destruct Hev as (Hlen & index & Hget).
      destruct (walkIndicesFn_marks proxy lru t st path info index Hex Hlen Hget)
        as (st1' & Hst1' & Hdead).
      rewrite Hstep in Hst1'. injection Hst1' as <-.
      split.
      * etrans; [|exact Hsub]. rewrite Hdead.
        destruct (marks proxy lru path index); [apply union_subseteq_r|done].
      * constructor; [|done]. intros _. split; [done|].
        exists index. split; [done|]. intros Hnot.
        destruct (marks proxy lru path index); [|done].
        exfalso. apply Hnot. apply Hsub. rewrite Hdead.
        apply elem_of_union. left. by apply elem_of_singleton.
    + rewrite walkIndicesFn_skipped in Hstep by done. injection Hstep as <-.
      split; [done|]. constructor; [|done]. intros Hex'. congruence.
Qed.

(** A path is marked only when the walk examines an entry with that
    path. *)
Lemma Walk_indices_marked proxy lru t evs : ∀ st st' path,
  Walk (walkIndicesFn proxy lru t) st evs = Continue st' →
  path ∈ iw_deadIndices st' →
  path ∈ iw_deadIndices st
  ∨ ∃ info, Visit path info ∈ evs ∧ examined t (Visit path info) = true.
Proof.
  induction evs as [|ev evs IH]; intros st st' path; simpl.
  - intros [= <-]. by left.
  - destruct (walkIndicesFn proxy lru t st ev) as [st1 | |] eqn:Hstep;
      [|done|done].
    intros Hwalk Hin. destruct (IH _ _ _ Hwalk Hin) as [Hst1 | (info & Hev & Hex)].
    + pose proof (walkIndicesFn_continue _ _ _ _ _ _ Hstep) as Hev.
      destruct ev as [p info | p err]; [|done].
      destruct (examined t (Visit p info)) eqn:Hex.
      * destruct Hev as (Hlen & index & Hget).
        destruct (walkIndicesFn_marks proxy lru t st p info index Hex Hlen Hget)
          as (st1' & Hst1' & Hdead).
        rewrite Hstep in Hst1'. injection Hst1' as <-. rewrite Hdead in Hst1.
        destruct (marks proxy lru p index); [|by left].
        apply elem_of_union in Hst1 as [Hp | Hold]; [|by left].
        apply elem_of_singleton in Hp as ->. right. exists info.
        split; [by left|done].
      * rewrite walkIndicesFn_skipped in Hstep by done. injection Hstep as <-.
        by left.
    + right. exists info. split; [by right|done].
Qed.

(** The part of C1 that holds: an index that the walk examined and that
    the pass did not mark has chunks, and none of them is a chunk that
    the pass removes. *)
Lemma surviving_index_has_no_dead_chunk proxy now lru deadIndices effs
    path info :
  gcOnce proxy now = Completed lru deadIndices effs →
  Visit path info ∈ indexFiles proxy →
  examined (now + 10 * Minute) (Visit path info) = true →
  path ∉ deadIndices →
  ∃ index, GetIndex proxy (relName proxy path) = inr index
    ∧ Chunks index ≠ []
    ∧ ∀ c, c ∈ Chunks index → RemoveChunk (ic_ID c) ∉ effs.
Proof.
  intros Hgc Hin Hex Hnot.
  apply gcOnce_completed in Hgc as (sw & iw & Hsw & -> & Hiw & -> & ->).
  destruct (Walk_indices_facts _ _ _ _ _ _ Hiw) as [_ Hfacts].
  pose proof (proj1 (Forall_forall _ _) Hfacts _ Hin Hex)
    as (_ & index & Hget & Hmarks).
  specialize (Hmarks Hnot). unfold marks in Hmarks.
  rewrite !orb_false_iff in Hmarks. destruct Hmarks as [[Hnil Hdead] _].
  exists index. split; [done|]. split.
  - by apply bool_decide_eq_false in Hnil.
  - intros c Hc Heff. apply someChunkDead_false in Hdead.
    apply (proj1 (Forall_forall _ _) Hdead c Hc).
    apply elem_of_app in Heff as [Heff | Heff].
    + by apply list_elem_of_fmap in Heff as (p & ? & _).
    + apply list_elem_of_fmap in Heff as (id & [= ->] & Hid).
      by apply elem_of_elements in Hid.
Qed.

Lemma someChunkDead_empty lru chunks :
  dead lru = ∅ → someChunkDead lru chunks = false.
Proof.
  intros Hempty. apply someChunkDead_false, Forall_forall. intros c _.
  rewrite Hempty. apply not_elem_of_empty.
Qed.

Lemma second_walkIndices (proxy proxy' : Proxy) (lru lru' : chunkLRU)
    (t t' : Z) (D : gset string) (evs : list WalkEvent) :
  indexPath proxy' = indexPath proxy →
  GetIndex proxy' = GetIndex proxy →
  dead lru' = ∅ →
  (∀ path index,
     someChunkDead lru (Chunks index) = false →
     integrityFails proxy' path index = integrityFails proxy path index) →
  Forall (λ ev,
    match ev with
    | VisitErr _ _ => False
    | Visit path info =>
        examined t ev = true →
        (String.length (indexPath proxy) ≤ String.length path)%nat
        ∧ ∃ index, GetIndex proxy (relName proxy path) = inr index
            ∧ (path ∉ D → marks proxy lru path index = false)
    end) evs →
  (∀ ev, ev ∈ evs → examined t' ev = true → examined t ev = true) →
  ∀ st, ∃ st',
    Walk (walkIndicesFn proxy' lru' t') st
      (filter (λ ev, ev_path ev ∉ elements D) evs) = Continue st'
    ∧ iw_deadIndices st' = iw_deadIndices st.
Proof.
  intros Hpath Hget Hempty Hfails Hall Hstable.
  induction evs as [|ev evs IH]; intros st; [by exists st|].
  apply Forall_cons in Hall as [Hev Hall].
  assert (∀ ev', ev' ∈ evs → examined t' ev' = true → examined t ev' = true)
    as Hstable' by (intros ev' Hin; apply Hstable; by right).
  specialize (IH Hall Hstable').
  rewrite filter_cons. destruct (decide (ev_path ev ∉ elements D)) as [Hk | Hk];
    [|apply IH].
  destruct ev as [path info | path err]; [|done]. simpl in Hk.
  cbn [Walk].
  destruct (examined t' (Visit path info)) eqn:Hex'.
  - destruct (Hev (Hstable _ ltac:(by left) Hex')) as (Hlen & index & Hidx & Hmarks).
    assert (marks proxy lru path index = false) as Hm.
    { apply Hmarks. intros Hin. apply Hk. by apply elem_of_elements. }
    unfold marks in Hm. rewrite !orb_false_iff in Hm.
    destruct Hm as [[Hnil Hdead] Hint].
    destruct (walkIndicesFn_marks proxy' lru' t' st path info index)
      as (st1 & Hst1 & Hd1).
    + done.
    + by rewrite Hpath.
    + unfold relName. rewrite Hget, Hpath. exact Hidx.
    + rewrite Hst1. destruct (IH st1) as (st' & Hwalk & Hd').
      exists st'. split; [done|]. rewrite Hd', Hd1.
      unfold marks. rewrite Hnil, (someChunkDead_empty _ _ Hempty).
      by rewrite (Hfails _ _ Hdead), Hint.
  - rewrite walkIndicesFn_skipped by done. apply IH.
Qed.

Lemma integrityFails_stable (proxy proxy' : Proxy) (lru : chunkLRU) path index :
  readsOnlyChunksOf proxy →
  narReader proxy' = narReader proxy →
  assembleNarinfo proxy' = assembleNarinfo proxy →
  (∀ id, id ∉ dead lru → GetChunk proxy' id = GetChunk proxy id) →
  someChunkDead lru (Chunks index) = false →
  integrityFails proxy' path index = integrityFails proxy path index.
Proof.
  intros Hlocal Hnar Hinfo Hget Hdead.
  destruct (Hlocal (GetChunk proxy') (GetChunk proxy) index) as [Hn Ha].
  { intros c Hc. apply Hget.
    apply someChunkDead_false in Hdead.
    by apply (proj1 (Forall_forall _ _) Hdead). }
  unfold integrityFails, checkNarContents. by rewrite Hnar, Hinfo, Hn, Ha.
Qed.

(** C9, as amended.  On a store that no one else writes, where every
    chunk file lies at the path the chunk store derives from its id, the
    chunk files add up to less than [2^64] bytes and the integrity checks
    read only the chunks of the index they check, a pass that follows a
    completed pass whose deletions succeeded, and that examines no index
    file the first pass skipped, finds no dead chunk and no dead index
    and deletes nothing. *)
Theorem C9_second_pass_deletes_nothing (proxy : Proxy) (now now' : Z)
    (lru : chunkLRU) (deadIndices : gset string) (effs : list Effect) :
  gcOnce proxy now = Completed lru deadIndices effs →
  canonicalStore proxy →
  sumSizes (offered <$> offersOf proxy (storeFiles proxy)) < 2 ^ 64 →
  readsOnlyChunksOf proxy →
  (∀ ev, ev ∈ indexFiles proxy →
         examined (now' + 10 * Minute) ev = true →
         examined (now + 10 * Minute) ev = true) →
  deadChunksOf (gcOnce (afterPass proxy now) now') = Some ∅
  ∧ deadIndicesOf (gcOnce (afterPass proxy now) now') = Some ∅
  ∧ effects (gcOnce (afterPass proxy now) now') = [].
Proof.
  intros Hgc Hcanon Hsmall Hlocal Hstable.
  unfold afterPass. rewrite Hgc. simpl.
  apply gcOnce_completed in Hgc as (sw & iw & Hsw & -> & Hiw & -> & ->).
  set (effs := (OsRemove <$> elements (iw_deadIndices iw))
                 ++ (RemoveChunk <$> elements (dead (sw_lru sw)))).
  destruct (afterEffects effs proxy)
    as (Hc & Hb & Hp & Hg & Hn & Ha & Hs & Hi & Hget).
  set (proxy' := foldl applyEffect proxy effs) in *.
  unfold effs in Hs, Hi, Hget.
  rewrite removedChunks_effects in Hs, Hget. rewrite removedPaths_effects in Hi.
  pose proof (walkStore_offers proxy sw Hsw) as Hoff.
  pose proof (maxCacheSize_range proxy) as Hmax.
  pose proof (NewLRU_inv _ Hmax) as Hnew.
  assert (maxCacheSize proxy' = maxCacheSize proxy) as Hmax'
    by (unfold maxCacheSize; by rewrite Hc).
  assert (∀ id, id ∉ dead (sw_lru sw) → GetChunk proxy' id = GetChunk proxy id)
    as Hget'.
  { intros id Hid. rewrite Hget. rewrite decide_False; [done|].
    by rewrite elem_of_elements. }
  (* the chunk walk *)
  destruct (second_offers proxy proxy' (dead (sw_lru sw))
              (λ ev, ev_path ev ∉ nameFromID (storeBase proxy)
                                   <$> elements (dead (sw_lru sw)))
              (storeFiles proxy) Hget')
    as (surv & Hsurv & Hsub).
  { intros ev o Hin Hkeep Hcl Hid.
    destruct ev as [path info | path err]; [|done].
    apply Hkeep. simpl. rewrite (Hcanon path info o Hin Hcl).
    apply list_elem_of_fmap_2. by apply elem_of_elements. }
  { intros ev s Hin Hcl.
    apply (proj2 (offerAll_stats _ _ _ Hnew Hoff) s).
    apply list_elem_of_omap. by exists ev. }
  rewrite <- Hs in Hsurv.
  destruct (offerAll_within_budget surv (NewLRU (maxCacheSize proxy')))
    as (l2 & Hl2 & Hd2 & _ & _).
  { apply NewLRU_inv. rewrite Hmax'. exact Hmax. }
  { simpl. rewrite Hmax'.
    pose proof (sumSizes_sublist _ _ Hsub).
    pose proof (survivors_fit _ _ _ Hmax Hoff Hsmall). lia. }
  destruct (Walk_store_total proxy' (storeFiles proxy')
              {| sw_lru := NewLRU (maxCacheSize proxy'); sw_chunkDirs := 0 |})
    as (sw' & Hsw').
  { apply NewLRU_inv. rewrite Hmax'. exact Hmax. }
  { rewrite Hs. apply Forall_forall. intros ev Hev.
    apply list_elem_of_filter in Hev as [_ Hev].
    by apply (proj1 (Forall_forall _ _) (Walk_store_errors _ _ _ _ Hsw)). }
  pose proof (Walk_store_offers _ _ _ _ Hsw') as Hoff'. simpl in Hoff'.
  rewrite Hsurv, Hl2 in Hoff'. injection Hoff' as Hl2'.
  assert (dead (sw_lru sw') = ∅) as Hempty by (by rewrite <- Hl2', Hd2).
  (* the index walk *)
  destruct (Walk_indices_facts _ _ _ _ _ _ Hiw) as [_ Hfacts].
  destruct (second_walkIndices proxy proxy' (sw_lru sw) (sw_lru sw')
              (now + 10 * Minute) (now' + 10 * Minute)
              (iw_deadIndices iw) (indexFiles proxy) Hp Hg Hempty)
    with (st := {| iw_deadIndices := ∅; iw_indicesCount := 0;
                   iw_inflatedSize := 0 |})
    as (iw' & Hiw' & Hd').
  { intros path index. by apply (integrityFails_stable proxy proxy' (sw_lru sw)). }
  { exact Hfacts. }
  { exact Hstable. }
  rewrite <- Hi in Hiw'.
  unfold gcOnce, walkStore, walkIndices. rewrite Hsw', Hiw'. simpl in *.
  rewrite Hd', Hempty. unfold Dead. rewrite Hempty, !elements_empty. done.
Qed.

Lemma demo_canonical : canonicalStore demo.
Proof.
  intros path info o Hin Hcl.
  apply list_elem_of_In in Hin. simpl in Hin.
  destruct Hin as [Hin | [Hin | [Hin | [Hin | [Hin | []]]]]];
    injection Hin as <- <-; vm_compute in Hcl;
    first [discriminate | injection Hcl as <-; vm_compute; reflexivity].
Qed.

Lemma demo_stable t :
  ∀ ev, ev ∈ indexFiles demo →
        examined (t + 10 * Minute) ev = true →
        examined (t0 + 10 * Minute) ev = true.
Proof.
  intros ev Hin Hex.
  apply list_elem_of_In in Hin. simpl in Hin.
  destruct Hin as [Hin | [Hin | [Hin | [Hin | []]]]]; subst ev;
    vm_compute; first [reflexivity | exact Hex].
Qed.

Lemma C9_witness :
  deadChunksOf (gcOnce (afterPass demo t0) (t0 + 10 * Second)) = Some ∅
  ∧ deadIndicesOf (gcOnce (afterPass demo t0) (t0 + 10 * Second)) = Some ∅
  ∧ effects (gcOnce (afterPass demo t0) (t0 + 10 * Second)) = [].
Proof.
  destruct (gcOnce demo t0) as [| | |lru deadIndices effs] eqn:Hgc;
    [vm_compute in Hgc; discriminate..|].
  apply (C9_second_pass_deletes_nothing demo t0 (t0 + 10 * Second)
           lru deadIndices effs Hgc).
  - exact demo_canonical.
  - vm_compute. reflexivity.
  - intros g g' index _. split; reflexivity.
  - apply demo_stable.
Defined.

(** C9 as stated fails for a file of an unknown kind that the first pass
    skips for its age and the second pass, run ten seconds later, does
    not: nothing was written in between, and the second pass marks the
    file dead and removes it. *)
Lemma C9_counterexample :
  deadChunksOf (gcOnce future_file t0) = Some ∅
  ∧ deadIndicesOf (gcOnce future_file t0) = Some ∅
  ∧ effects (gcOnce future_file t0) = []
  ∧ deadIndicesOf (gcOnce (afterPass future_file t0) (t0 + 10 * Second))
    = Some {[ "/index/x.foo" ]}
  ∧ effects (gcOnce (afterPass future_file t0) (t0 + 10 * Second))
    = [OsRemove "/index/x.foo"].
Proof. split_and!; vm_compute; reflexivity. Qed.

(** Why the chunk files must lie where the store looks for them: with a
    stray copy of an evicted chunk, [RemoveChunk] removes the file desync
    wrote, the copy stays, and the next pass finds the chunk unreadable
    and dead again. *)
Lemma second_pass_with_stray_copy :
  deadChunksOf (gcOnce stray t0) = Some {[ idOf 1 ]}
  ∧ effects (gcOnce stray t0) = [RemoveChunk (idOf 1)]
  ∧ deadChunksOf (gcOnce (afterPass stray t0) (t0 + 10 * Second))
    = Some {[ idOf 1 ]}.
Proof. split_and!; vm_compute; reflexivity. Qed.

(** ** Files being written *)

Lemma hexdigit_not_dot n : hexdigit n ≠ "."%char.
Proof.
  unfold hexdigit.
  assert (N.to_nat (n mod 16) < 16)%nat as Hlt.
  { pose proof (N.mod_upper_bound n 16). lia. }
  remember (N.to_nat (n mod 16)) as k eqn:Hk. clear Hk.
  do 16 (destruct k as [|k]; [intros Hdot; vm_compute in Hdot; discriminate|]).
  lia.
Qed.

(** The file [RemoveChunk] removes is named by the hexadecimal digits of
    the id: its name never begins with [.tmp]. *)
Lemma prefix_cons_ne a b s1 s2 :
  a ≠ b → String.prefix (String.String a s1) (String.String b s2) = false.
Proof. intros Hne. cbn [String.prefix]. by destruct (ascii_dec a b). Qed.

Lemma fileName_not_tmp id : HasPrefix (fileName id) ".tmp" = false.
Proof.
  destruct id as [|v id]; [done|].
  change (fileName (v :: id))
    with (String.String (hexdigit (v / 16))
            (of_chars (hexdigit v :: hexEncode id) +:+ CompressedChunkExt)).
  apply prefix_cons_ne. intros Heq. by apply (hexdigit_not_dot (v / 16)).
Qed.

Lemma walkStoreFn_tmp proxy st path info :
  HasPrefix (fi_Name info) ".tmp" = true →
  classify proxy (Visit path info) = None
  ∧ ∃ st', walkStoreFn proxy st (Visit path info) = Continue st'
      ∧ sw_lru st' = sw_lru st.
Proof.
  intros Htmp. simpl. rewrite Htmp.
  destruct (fi_IsDir info); simpl; by eauto.
Qed.

(** C6, as amended.  A file of the chunk store whose name begins with
    [.tmp] is never classified: the chunk walk offers it neither to [Add]
    nor to [AddDead] and leaves the classifier as it was.  No
    [RemoveChunk] of the pass removes a file whose name begins with
    [.tmp], and every [os.Remove] of the pass is of an entry of the index
    directory that the index walk examined. *)
Theorem C6_tmp_chunk_files_untouched (proxy : Proxy) (now : Z) :
  (∀ st path info,
     HasPrefix (fi_Name info) ".tmp" = true →
     classify proxy (Visit path info) = None
     ∧ ∃ st', walkStoreFn proxy st (Visit path info) = Continue st'
         ∧ sw_lru st' = sw_lru st)
  ∧ (∀ id,
       RemoveChunk id ∈ effects (gcOnce proxy now) →
       HasPrefix (fileName id) ".tmp" = false)
  ∧ (∀ path,
       OsRemove path ∈ effects (gcOnce proxy now) →
       ∃ info, Visit path info ∈ indexFiles proxy
         ∧ examined (now + 10 * Minute) (Visit path info) = true).
Proof.
  split; [|split].
  - intros st path info. apply walkStoreFn_tmp.
  - intros id _. apply fileName_not_tmp.
  - intros path Hin.
    destruct (gcOnce proxy now) as [| | |lru deadIndices effs] eqn:Hgc;
      try by apply elem_of_nil in Hin.
    apply gcOnce_completed in Hgc as (sw & iw & _ & -> & Hiw & -> & ->).
    simpl in Hin. apply elem_of_app in Hin as [Hin | Hin].
    + apply list_elem_of_fmap in Hin as (p & [= <-] & Hp).
      apply elem_of_elements in Hp.
      destruct (Walk_indices_marked _ _ _ _ _ _ _ Hiw Hp) as [Hempty | Hex];
        [|done].
      by apply elem_of_empty in Hempty.
    + by apply list_elem_of_fmap in Hin as (id & ? & _).
Qed.

Lemma C6_witness :
  (classify demo
     (Visit "/store/0000/.tmp-cacnk123"
        {| fi_Name := ".tmp-cacnk123"; fi_Size := 7; fi_ModTime := t0;
           fi_IsDir := false |}) = None
   ∧ ∃ st',
       walkStoreFn demo
         {| sw_lru := NewLRU (maxCacheSize demo); sw_chunkDirs := 0 |}
         (Visit "/store/0000/.tmp-cacnk123"
            {| fi_Name := ".tmp-cacnk123"; fi_Size := 7; fi_ModTime := t0;
               fi_IsDir := false |}) = Continue st'
       ∧ sw_lru st' = NewLRU (maxCacheSize demo))
  ∧ HasPrefix (fileName (idOf 1)) ".tmp" = false
  ∧ ∃ info, Visit "/index/a.nar" info ∈ indexFiles demo
      ∧ examined (t0 + 10 * Minute) (Visit "/index/a.nar" info) = true.
Proof.
  destruct (C6_tmp_chunk_files_untouched demo t0) as (Hwalk & Hremove & Hindex).
  split; [|split].
  - apply Hwalk. vm_compute. reflexivity.
  - apply Hremove. apply (list_elem_of_lookup_2 _ 2%nat). vm_compute. reflexivity.
  - apply Hindex. apply (list_elem_of_lookup_2 _ 1%nat). vm_compute. reflexivity.
Defined.

(** C6 as stated fails in the index directory, which the walk does not
    filter by name: the index file [.tmp-upload.nar], without chunks, is
    marked dead and removed. *)
Lemma C6_counterexample :
  HasPrefix ".tmp-upload.nar" ".tmp" = true
  ∧ deadIndicesOf (gcOnce tmp_index t0) = Some {[ "/index/.tmp-upload.nar" ]}
  ∧ effects (gcOnce tmp_index t0) = [OsRemove "/index/.tmp-upload.nar"].
Proof. split; [done|]. split; by vm_compute. Qed.

(** * Further properties of the classifier *)

Lemma filter_Forall {A} (P : A → Prop) `{!∀ x, Decision (P x)} (l : list A) :
  Forall P l → filter P l = l.
Proof.
  induction 1 as [|x l Hx _ IH]; [done|]. by rewrite filter_cons_True, IH.
Qed.

Lemma filter_Forall_not {A} (P : A → Prop) `{!∀ x, Decision (P x)} (l : list A) :
  Forall (λ x, ¬ P x) l → filter P l = [].
Proof.
  induction 1 as [|x l Hx _ IH]; [done|]. by rewrite filter_cons_False.
Qed.

(** X1. [Add] inserts a chunk right after the live chunks that are at
    least as fresh as it: the position [sort.Search] returns is their
    number, and the sequence after [insertAt] is those chunks, the new
    chunk, then the strictly older ones.  A chunk with the mtime of a
    live chunk goes behind it. *)
Theorem X1_insertion_point (l : chunkLRU) (stat : chunkStat) :
  descending (live l) →
  Search (length (live l)) (isOlder l stat)
  = length (filter (λ c, cs_mtime stat ≤ cs_mtime c) (live l))
  ∧ inserted l stat
    = filter (λ c, cs_mtime stat ≤ cs_mtime c) (live l)
        ++ stat :: filter (λ c, cs_mtime c < cs_mtime stat) (live l).
Proof.
  intros Hs. destruct (Search_isOlder l stat Hs) as (Hi & Hb & Ha).
  set (i := Search (length (live l)) (isOlder l stat)) in *.
  assert (filter (λ c, cs_mtime stat ≤ cs_mtime c) (live l) = take i (live l))
    as Hfresh.
  { rewrite <- (take_drop i (live l)) at 1. rewrite filter_app.
    rewrite (filter_Forall _ _ Hb), filter_Forall_not, (right_id_L [] (++)).
    - done.
    - eapply Forall_impl; [exact Ha|]. simpl. intros. lia. }
  assert (filter (λ c, cs_mtime c < cs_mtime stat) (live l) = drop i (live l))
    as Hold.
  { rewrite <- (take_drop i (live l)) at 1. rewrite filter_app.
    rewrite (filter_Forall _ _ Ha), filter_Forall_not.
    - done.
    - eapply Forall_impl; [exact Hb|]. simpl. intros. lia. }
  rewrite Hfresh, Hold. split.
  - rewrite length_take. lia.
  - unfold inserted. fold i. by apply insertAt_live.
Qed.

Lemma X1_witness :
  Search 2 (isOlder (afterEvictions (NewLRU 100) [chunkC; chunkA] 0) chunkB)
  = length (filter (λ c, cs_mtime chunkB ≤ cs_mtime c) [chunkC; chunkA])
  ∧ inserted (afterEvictions (NewLRU 100) [chunkC; chunkA] 0) chunkB
    = filter (λ c, cs_mtime chunkB ≤ cs_mtime c) [chunkC; chunkA]
        ++ chunkB :: filter (λ c, cs_mtime c < cs_mtime chunkB) [chunkC; chunkA].
Proof.
  apply (X1_insertion_point (afterEvictions (NewLRU 100) [chunkC; chunkA] 0) chunkB).
  repeat constructor; simpl; lia.
Defined.

(** X2. [insertAt], at a position within the slice, makes room without
    losing or repeating a chunk: the sequence is one longer, holds [v] at
    [i], is unchanged before [i] and shifted by one from [i] on. *)
Theorem X2_insertAt_makes_room (l : chunkLRU) (i : nat) (v : chunkStat) :
  (i ≤ length (live l))%nat →
  length (live (insertAt l i v)) = S (length (live l))
  ∧ live (insertAt l i v) !! i = Some v
  ∧ (∀ k, (k < i)%nat → live (insertAt l i v) !! k = live l !! k)
  ∧ (∀ k, (i ≤ k)%nat → live (insertAt l i v) !! S k = live l !! k).
Proof.
  intros Hi. rewrite insertAt_live by done. split_and!.
  - rewrite length_app, length_take. simpl. rewrite length_drop. lia.
  - rewrite lookup_app_r by (rewrite length_take; lia).
    rewrite length_take. by replace (i - i `min` length (live l))%nat with 0%nat by lia.
  - intros k Hk. rewrite lookup_app_l by (rewrite length_take; lia).
    by rewrite lookup_take_lt.
  - intros k Hk. rewrite lookup_app_r by (rewrite length_take; lia).
    rewrite length_take.
    replace (S k - i `min` length (live l))%nat with (S (k - i)) by lia.
    simpl. rewrite lookup_drop. f_equal. lia.
Qed.

Lemma X2_witness :
  length (live (insertAt (afterEvictions (NewLRU 100) [chunkC; chunkA] 0) 1 chunkB))
  = 3%nat
  ∧ live (insertAt (afterEvictions (NewLRU 100) [chunkC; chunkA] 0) 1 chunkB) !! 1%nat
    = Some chunkB
  ∧ live (insertAt (afterEvictions (NewLRU 100) [chunkC; chunkA] 0) 1 chunkB) !! 0%nat
    = Some chunkC
  ∧ live (insertAt (afterEvictions (NewLRU 100) [chunkC; chunkA] 0) 1 chunkB) !! 2%nat
    = Some chunkA.
Proof.
  destruct (X2_insertAt_makes_room
              (afterEvictions (NewLRU 100) [chunkC; chunkA] 0) 1 chunkB)
    as (Hlen & Hat & Hbefore & Hafter); [simpl; lia|].
  split_and!; [exact Hlen|exact Hat| |].
  - by rewrite (Hbefore 0%nat) by lia.
  - by rewrite (Hafter 1%nat) by lia.
Defined.


Lemma offer_sizes l o l' :
  lru_inv l → offer l o = Some l' →
  uint64 (liveSize l' + deadSize l')
  = uint64 (liveSize l + deadSize l + uint64 (cs_size (offered o))).
Proof.
  intros Hinv Ho. destruct o as [s|s]; simpl in *.
  - destruct (Add_spec l s Hinv) as (k & _ & Hk & _). rewrite Hk in Ho.
    injection Ho as <-. simpl.
    rewrite uint64_add_l, uint64_add_r.
    rewrite (inv_liveSize _ Hinv), <- !Z.add_assoc, uint64_add_l.
    pose proof (sumSizes_perm _ _ (inserted_perm l s (inv_sorted _ Hinv))) as Hp.
    rewrite <- (take_drop (length (inserted l s) - k) (inserted l s)) in Hp at 1.
    rewrite sumSizes_app in Hp. simpl in Hp. f_equal. lia.
  - injection Ho as <-. simpl. rewrite uint64_add_r. f_equal. lia.
Qed.

(** X3. The classifier accounts for every byte it is offered: after any
    sequence of [Add] and [AddDead], [liveSize] plus [deadSize] is the sum
    of the offered sizes, in [uint64] arithmetic. *)
Theorem X3_sizes_are_conserved (max : Z) (os : list Offer) :
  is_uint64 max →
  ∃ l, offerAll (NewLRU max) os = Some l
    ∧ uint64 (liveSize l + deadSize l) = uint64 (sumSizes (offered <$> os)).
Proof.
  intros Hmax. pose proof (NewLRU_inv max Hmax) as Hnew.
  destruct (offerAll_total os _ Hnew) as (l & Hl & _).
  exists l. split; [done|].
  assert (∀ os l0 l1, lru_inv l0 → offerAll l0 os = Some l1 →
            uint64 (liveSize l1 + deadSize l1)
            = uint64 (liveSize l0 + deadSize l0 + sumSizes (offered <$> os)))
    as Hgen.
  { clear. induction os as [|o os IH]; intros l0 l1 Hinv; cbn [offerAll].
    - intros [= <-]. simpl. f_equal. lia.
    - destruct (offer l0 o) as [l'|] eqn:Ho; [|done]. intros Hl1.
      rewrite (IH l' l1 (offer_inv _ _ _ Hinv Ho) Hl1).
      rewrite <- (uint64_add_l (liveSize l' + deadSize l')).
      rewrite (offer_sizes _ _ _ Hinv Ho), uint64_add_l.
      rewrite fmap_cons.
      change (sumSizes (offered o :: (offered <$> os)))
        with (uint64 (cs_size (offered o)) + sumSizes (offered <$> os)).
      f_equal. lia. }
  rewrite (Hgen os _ l Hnew Hl). simpl. f_equal.
Qed.

Lemma X3_witness :
  ∃ l, offerAll (NewLRU 10) [ViaAdd chunkA; ViaAddDead chunkC; ViaAdd chunkB]
       = Some l
    ∧ uint64 (liveSize l + deadSize l)
      = uint64 (sumSizes (offered <$> [ViaAdd chunkA; ViaAddDead chunkC; ViaAdd chunkB])).
Proof.
  apply (X3_sizes_are_conserved 10). unfold is_uint64. lia.
Defined.

Lemma sumSizes_elem c l : c ∈ l → uint64 (cs_size c) ≤ sumSizes l.
Proof.
  induction l as [|x l IH]; intros Hc; [by apply elem_of_nil in Hc|].
  simpl. apply elem_of_cons in Hc as [-> | Hc].
  - pose proof (sumSizes_nonneg l). lia.
  - pose proof (uint64_range (cs_size x)) as Hx. unfold is_uint64 in Hx.
    specialize (IH Hc). lia.
Qed.

(** X4. A chunk that alone exceeds the budget is never kept: when the
    sizes do not wrap around, [Add] of a chunk larger than [liveSizeMax]
    returns with that chunk's id in [dead], together with the id of every
    live chunk older than it, and no live chunk is larger than the
    budget. *)
Theorem X4_oversized_chunk_is_evicted (l l' : chunkLRU) (stat : chunkStat) :
  lru_inv l →
  sumSizes (live l) + uint64 (cs_size stat) < 2 ^ 64 →
  liveSizeMax l < uint64 (cs_size stat) →
  Add l stat = Some l' →
  (∀ c, c ∈ live l' → uint64 (cs_size c) ≤ liveSizeMax l)
  ∧ (stat ∉ live l')
  ∧ cs_id stat ∈ dead l'
  ∧ (∀ c, c ∈ live l → cs_mtime c < cs_mtime stat → cs_id c ∈ dead l').
Proof.
  intros Hinv Hsmall Hbig Hadd.
  destruct (Add_spec l stat Hinv) as (k & Hk & Hspec & _ & Hend).
  rewrite Hspec in Hadd. injection Hadd as <-.
  pose proof (inv_sorted _ Hinv) as Hs.
  pose proof (inserted_perm l stat Hs) as Hperm.
  destruct (inserted_split l stat Hs) as (before & after & Hlive & Hins & Hb & Ha).
  set (ins := inserted l stat) in *. set (n := (length ins - k)%nat) in *.
  assert (sumSizes ins < 2 ^ 64) as Hins_small
    by (rewrite (sumSizes_perm _ _ Hperm); simpl; lia).
  assert (sumSizes (take n ins) ≤ liveSizeMax l) as Hkept.
  { pose proof (sumSizes_nonneg (take n ins)) as Hnn.
    pose proof (sumSizes_sublist _ _ (sublist_take ins n)) as Hle.
    rewrite uint64_small in Hend by (unfold is_uint64; lia). done. }
  assert (∀ c, c ∈ take n ins → uint64 (cs_size c) ≤ liveSizeMax l) as Hall.
  { intros c Hc. pose proof (sumSizes_elem c _ Hc). lia. }
  assert (stat ∉ take n ins) as Hnot.
  { intros Hin. specialize (Hall _ Hin). lia. }
  assert (n ≤ length before)%nat as Hn.
  { destruct (decide (n ≤ length before)%nat) as [|Hgt]; [done|]. exfalso.
    apply Hnot. apply list_elem_of_lookup. exists (length before).
    rewrite lookup_take_lt by lia. rewrite Hins.
    rewrite lookup_app_r by lia. by rewrite Nat.sub_diag. }
  assert (∀ c, c ∈ stat :: after → cs_id c ∈ dead (afterEvictions l ins k))
    as Hgone.
  { intros c Hc. simpl. apply elem_of_union. left.
    apply elem_of_list_to_set, list_elem_of_fmap_2. fold n.
    rewrite Hins, drop_app_le by done. apply elem_of_app. by right. }
  simpl. fold n. split_and!; [done|done| |].
  - apply Hgone. by left.
  - intros c Hc Hold. apply Hgone. right.
    rewrite Hlive in Hc. apply elem_of_app in Hc as [Hc | Hc]; [|done].
    pose proof (proj1 (Forall_forall _ _) Hb c Hc). simpl in *. lia.
Qed.

Lemma X4_witness :
  ∃ l', Add (afterEvictions (NewLRU 5) [chunkC] 0) chunkB = Some l'
    ∧ (∀ c, c ∈ live l' → uint64 (cs_size c) ≤ 5)
    ∧ (chunkB ∉ live l')
    ∧ cs_id chunkB ∈ dead l'.
Proof.
  destruct (Add (afterEvictions (NewLRU 5) [chunkC] 0) chunkB) as [l'|] eqn:Hadd;
    [|vm_compute in Hadd; discriminate].
  exists l'. split; [done|].
  destruct (X4_oversized_chunk_is_evicted
              (afterEvictions (NewLRU 5) [chunkC] 0) l' chunkB)
    as (Hall & Hnot & Hdead & _); [| | |exact Hadd|done].
  - apply afterEvictions_inv; [unfold is_uint64; simpl; lia|repeat constructor|].
    vm_compute. discriminate.
  - vm_compute. reflexivity.
  - vm_compute. reflexivity.
Defined.

(** * Further properties of the pass *)

(** ** The check of a NAR's contents *)

Lemma narLoop_accepts rd : ∀ none,
  narLoop rd none = None
  ↔ ∃ n, narEntries rd = Some n ∧ (none = true → n ≠ 0%nat).
Proof.
  induction rd as [rest IH | | err]; intros none; simpl.
  - rewrite IH. split.
    + intros (n & -> & _). by exists (S n).
    + intros (n & Hn & _). destruct (narEntries rest) as [m|]; [|done].
      exists m. split; [done|]. by intros [=].
  - destruct none; split; try done.
    + intros (n & [= <-] & Hn). by destruct Hn.
    + intros _. exists 0%nat. split; [done|]. by intros [=].
  - split; [done|]. by intros (n & [=] & _).
Qed.

Lemma narLoop_error rd err : ∀ none,
  narLoop rd none = Some err →
  (narEntries rd = None ∨ (narEntries rd = Some 0%nat ∧ none = true
                            ∧ err = ErrString "no contents in NAR")).
Proof.
  induction rd as [rest IH | | e]; intros none; simpl.
  - intros Hloop. destruct (IH _ Hloop) as [-> | (_ & [=] & _)]. by left.
  - destruct none; [|done]. intros [= <-]. by right.
  - by left.
Qed.

(** X5. [checkNarContents] accepts an index exactly when the NAR reader
    opens and [Next] returns at least one entry and then [io.EOF] without
    an error before it; a NAR without entries is rejected with the error
    [no contents in NAR]. *)
Theorem X5_checkNarContents_accepts (proxy : Proxy) (idx : Index) :
  (checkNarContents proxy idx = None
   ↔ ∃ narRd n, narReader proxy (GetChunk proxy) idx = inr narRd
       ∧ narEntries narRd = Some (S n))
  ∧ (∀ narRd, narReader proxy (GetChunk proxy) idx = inr narRd →
       narEntries narRd = Some 0%nat →
       checkNarContents proxy idx = Some (ErrString "no contents in NAR"))
  ∧ (∀ err, narReader proxy (GetChunk proxy) idx = inl err →
       checkNarContents proxy idx = Some err).
Proof.
  unfold checkNarContents. split_and!.
  - destruct (narReader proxy (GetChunk proxy) idx) as [err | rd].
    + split; [done|]. by intros (rd & n & [=] & _).
    + rewrite narLoop_accepts. split.
      * intros (n & Hn & Hpos). destruct n as [|n]; [by destruct Hpos|].
        by exists rd, n.
      * intros (rd' & n & [= <-] & Hn). exists (S n). split; [done|]. done.
  - intros rd -> Hn. destruct (narLoop rd true) as [err|] eqn:Hloop.
    + apply narLoop_error in Hloop as [Hnone | (_ & _ & ->)]; [|done].
      rewrite Hn in Hnone. discriminate.
    + apply narLoop_accepts in Hloop as (n & Hn' & Hpos).
      rewrite Hn in Hn'. injection Hn' as <-. by destruct Hpos.
  - by intros err ->.
Qed.

Lemma X5_witness : checkNarContents demo (indexOf [idOf 1]) = None.
Proof.
  apply (proj1 (X5_checkNarContents_accepts demo (indexOf [idOf 1]))).
  exists (NarEntry NarEOF), 0%nat. split; reflexivity.
Defined.

(** ** Which index files a pass removes *)

Lemma Walk_indices_reason proxy lru t evs : ∀ st st' path,
  Walk (walkIndicesFn proxy lru t) st evs = Continue st' →
  path ∈ iw_deadIndices st' →
  path ∈ iw_deadIndices st
  ∨ ∃ info index,
      Visit path info ∈ evs ∧ examined t (Visit path info) = true
      ∧ GetIndex proxy (relName proxy path) = inr index
      ∧ marks proxy lru path index = true.
Proof.
  induction evs as [|ev evs IH]; intros st st' path; simpl.
  - intros [= <-]. by left.
  - destruct (walkIndicesFn proxy lru t st ev) as [st1 | |] eqn:Hstep;
      [|done|done].
    intros Hwalk Hin.
    destruct (IH _ _ _ Hwalk Hin) as [Hst1 | (info & index & Hev & Hex & Hget & Hm)].
    + pose proof (walkIndicesFn_continue _ _ _ _ _ _ Hstep) as Hev.
      destruct ev as [p info | p err]; [|done].
      destruct (examined t (Visit p info)) eqn:Hex.
      * destruct Hev as (Hlen & index & Hget).
        destruct (walkIndicesFn_marks proxy lru t st p info index Hex Hlen Hget)
          as (st1' & Hst1' & Hdead).
        rewrite Hstep in Hst1'. injection Hst1' as <-. rewrite Hdead in Hst1.
        destruct (marks proxy lru p index) eqn:Hm; [|by left].
        apply elem_of_union in Hst1 as [Hp | Hold]; [|by left].
        apply elem_of_singleton in Hp as ->. right. exists info, index.
        split_and!; [by left|done..].
      * rewrite walkIndicesFn_skipped in Hstep by done. injection Hstep as <-.
        by left.
    + right. exists info, index. split_and!; [by right|done..].
Qed.

Lemma marks_iff proxy lru path index :
  marks proxy lru path index = true
  ↔ Chunks index = []
    ∨ (∃ c, c ∈ Chunks index ∧ ic_ID c ∈ dead lru)
    ∨ integrityFails proxy path index = true.
Proof.
  unfold marks. rewrite !orb_true_iff, bool_decide_eq_true, someChunkDead_true.
  tauto.
Qed.

(** X6. The index files a completed pass removes are exactly the entries
    of the index directory that the walk examined and whose index has no
    chunks, or refers to a chunk the classifier declared dead, or fails
    the integrity check of its kind. *)
Theorem X6_removed_indices (proxy : Proxy) (now : Z) (lru : chunkLRU)
    (deadIndices : gset string) (effs : list Effect) (path : string) :
  gcOnce proxy now = Completed lru deadIndices effs →
  OsRemove path ∈ effs
  ↔ ∃ info index,
      Visit path info ∈ indexFiles proxy
      ∧ examined (now + 10 * Minute) (Visit path info) = true
      ∧ GetIndex proxy (relName proxy path) = inr index
      ∧ (Chunks index = []
         ∨ (∃ c, c ∈ Chunks index ∧ ic_ID c ∈ dead lru)
         ∨ integrityFails proxy path index = true).
Proof.
  intros Hgc.
  apply gcOnce_completed in Hgc as (sw & iw & Hsw & -> & Hiw & -> & ->).
  assert (OsRemove path
            ∈ (OsRemove <$> elements (iw_deadIndices iw))
                ++ (RemoveChunk <$> elements (dead (sw_lru sw)))
          ↔ path ∈ iw_deadIndices iw) as ->.
  { rewrite elem_of_app. split.
    - intros [Hin | Hin].
      + apply list_elem_of_fmap in Hin as (p & [= ->] & Hp).
        by apply elem_of_elements in Hp.
      + by apply list_elem_of_fmap in Hin as (id & ? & _).
    - intros Hin. left. apply list_elem_of_fmap_2. by apply elem_of_elements. }
  split.
  - intros Hin.
    destruct (Walk_indices_reason _ _ _ _ _ _ _ Hiw Hin)
      as [Hempty | (info & index & Hev & Hex & Hget & Hm)].
    + by apply elem_of_empty in Hempty.
    + exists info, index. split_and!; [done..|]. by apply marks_iff.
  - intros (info & index & Hev & Hex & Hget & Hm).
    destruct (Walk_indices_facts _ _ _ _ _ _ Hiw) as [_ Hfacts].
    pose proof (proj1 (Forall_forall _ _) Hfacts _ Hev Hex)
      as (_ & index' & Hget' & Hmarks).
    rewrite Hget in Hget'. injection Hget' as <-.
    destruct (decide (path ∈ iw_deadIndices iw)) as [|Hnot]; [done|].
    apply marks_iff in Hm. rewrite (Hmarks Hnot) in Hm. discriminate.
Qed.

Lemma X6_witness :
  ∃ lru deadIndices effs,
    gcOnce demo t0 = Completed lru deadIndices effs
    ∧ (OsRemove "/index/c.nar" ∈ effs
       ↔ ∃ info index,
           Visit "/index/c.nar" info ∈ indexFiles demo
           ∧ examined (t0 + 10 * Minute) (Visit "/index/c.nar" info) = true
           ∧ GetIndex demo (relName demo "/index/c.nar") = inr index
           ∧ (Chunks index = []
              ∨ (∃ c, c ∈ Chunks index ∧ ic_ID c ∈ dead lru)
              ∨ integrityFails demo "/index/c.nar" index = true)).
Proof.
  destruct (gcOnce demo t0) as [| | |lru deadIndices effs] eqn:Hgc;
    [vm_compute in Hgc; discriminate..|].
  exists lru, deadIndices, effs. split; [done|].
  exact (X6_removed_indices demo t0 lru deadIndices effs "/index/c.nar" Hgc).
Defined.

(** ** Walks that stop *)

(** X7. A file of the chunk directory with the chunk extension whose name
    is not a chunk id stops the chunk walk: when no entry before it made
    the callback return an error, the pass ends with the error of
    [ChunkIDFromString], whatever follows in the directory, and removes
    nothing. *)
Theorem X7_malformed_chunk_name_aborts (proxy : Proxy) (now : Z)
    (evs1 evs2 : list WalkEvent) (path : string) (info : FileInfo)
    (err : error) :
  storeFiles proxy = evs1 ++ Visit path info :: evs2 →
  Forall (λ ev, storeWalkError ev = None) evs1 →
  fi_IsDir info = false →
  HasPrefix (fi_Name info) ".tmp" = false →
  Ext (fi_Name info) = CompressedChunkExt →
  ChunkIDFromString
    (String.substring 0
       (String.length (fi_Name info) - String.length (Ext (fi_Name info)))
       (fi_Name info)) = inl err →
  gcOnce proxy now = WalkStoreFailed err
  ∧ effects (gcOnce proxy now) = []
  ∧ afterPass proxy now = proxy.
Proof.
  intros Hfiles Hbefore Hdir Htmp Hext Hid.
  set (st0 := {| sw_lru := NewLRU (maxCacheSize proxy); sw_chunkDirs := 0 |}).
  destruct (Walk_store_total proxy evs1 st0) as (st1 & Hst1); [|done|].
  { apply NewLRU_inv, maxCacheSize_range. }
  assert (walkStore proxy = Stop err) as Hwalk.
  { unfold walkStore. rewrite Hfiles. apply (Walk_stop_at _ _ _ _ _ st1); [done|].
    unfold walkStoreFn. cbv zeta.
    rewrite Hdir, Htmp, Hid, Hext, String.eqb_refl. reflexivity. }
  assert (gcOnce proxy now = WalkStoreFailed err) as Hgc
    by (unfold gcOnce; by rewrite Hwalk).
  split; [done|]. unfold afterPass. by rewrite Hgc.
Qed.

Lemma X7_witness :
  gcOnce malformed t0
  = WalkStoreFailed (ErrString "failed to decode chunk id string")
  ∧ effects (gcOnce malformed t0) = []
  ∧ afterPass malformed t0 = malformed.
Proof.
  apply (X7_malformed_chunk_name_aborts malformed t0
           [ dirEntry "/store" "store";
             dirEntry "/store/0000" "0000";
             chunkFile "/store" (idOf 1) 500000000 (10 * Minute) ]
           [ chunkFile "/store" (idOf 2) 500000000 (20 * Minute) ]
           "/store/0000/notes.cacnk"
           {| fi_Name := "notes.cacnk"; fi_Size := 12; fi_ModTime := t0;
              fi_IsDir := false |}).
  - reflexivity.
  - repeat constructor.
  - reflexivity.
  - reflexivity.
  - vm_compute. reflexivity.
  - vm_compute. reflexivity.
Defined.

Lemma Walk_indices_total proxy lru t evs :
  Forall (λ ev,
    match ev with
    | VisitErr _ _ => False
    | Visit path info =>
        examined t ev = true →
        (String.length (indexPath proxy) ≤ String.length path)%nat
        ∧ ∃ index, GetIndex proxy (relName proxy path) = inr index
    end) evs →
  ∀ st, ∃ st', Walk (walkIndicesFn proxy lru t) st evs = Continue st'.
Proof.
  induction 1 as [|ev evs Hev _ IH]; intros st; simpl; [by eexists|].
  destruct ev as [path info | path err]; [|done].
  destruct (examined t (Visit path info)) eqn:Hex.
  - destruct (Hev eq_refl) as (Hlen & index & Hget).
    destruct (walkIndicesFn_marks proxy lru t st path info index Hex Hlen Hget)
      as (st1 & -> & _).
    apply IH.
  - rewrite walkIndicesFn_skipped by done. apply IH.
Qed.

(** X8. An index file that the walk examines and that [GetIndex] cannot
    load stops the index walk: when the entries before it were skipped or
    loaded, the pass ends with the error of [GetIndex] under the message
    [while getting index] and the file's name, and removes nothing, not
    even the chunks and index files it had marked by then. *)
Theorem X8_unreadable_index_aborts (proxy : Proxy) (now : Z) (sw : StoreWalk)
    (evs1 evs2 : list WalkEvent) (path : string) (info : FileInfo)
    (err : error) :
  walkStore proxy = Continue sw →
  indexFiles proxy = evs1 ++ Visit path info :: evs2 →
  Forall (λ ev,
    match ev with
    | VisitErr _ _ => False
    | Visit p i =>
        examined (now + 10 * Minute) ev = true →
        (String.length (indexPath proxy) ≤ String.length p)%nat
        ∧ ∃ index, GetIndex proxy (relName proxy p) = inr index
    end) evs1 →
  examined (now + 10 * Minute) (Visit path info) = true →
  (String.length (indexPath proxy) ≤ String.length path)%nat →
  GetIndex proxy (relName proxy path) = inl err →
  gcOnce proxy now
  = WalkIndicesFailed
      (WithMessage ("while getting index " +:+ relName proxy path) err)
  ∧ effects (gcOnce proxy now) = []
  ∧ afterPass proxy now = proxy.
Proof.
  intros Hsw Hfiles Hbefore Hex Hlen Hget.
  set (st0 := {| iw_deadIndices := ∅; iw_indicesCount := 0;
                 iw_inflatedSize := 0 |}).
  destruct (Walk_indices_total proxy (sw_lru sw) (now + 10 * Minute) evs1
              Hbefore st0) as (st1 & Hst1).
  assert (walkIndices proxy (sw_lru sw) now
          = Stop (WithMessage ("while getting index " +:+ relName proxy path) err))
    as Hwalk.
  { unfold walkIndices. rewrite Hfiles.
    apply (Walk_stop_at _ _ _ _ _ st1); [done|].
    apply examined_iff in Hex as [Hdir Hkind].
    simpl. rewrite Hdir.
    assert (negb ((Ext path =? ".nar")%string || (Ext path =? ".narinfo")%string
                  || bool_decide (fi_ModTime info < now + 10 * Minute)) = false)
      as ->.
    { apply negb_false_iff. rewrite !orb_true_iff, !String.eqb_eq,
        bool_decide_eq_true. tauto. }
    rewrite bool_decide_eq_false_2 by lia. by rewrite Hget. }
  assert (gcOnce proxy now
          = WalkIndicesFailed
              (WithMessage ("while getting index " +:+ relName proxy path) err))
    as Hgc by (unfold gcOnce; by rewrite Hsw, Hwalk).
  split; [done|]. unfold afterPass. by rewrite Hgc.
Qed.

Lemma X8_witness :
  gcOnce unreadable t0
  = WalkIndicesFailed
      (WithMessage "while getting index junk.nar" (ErrString "invalid index"))
  ∧ effects (gcOnce unreadable t0) = []
  ∧ afterPass unreadable t0 = unreadable.
Proof.
  destruct (walkStore unreadable) as [sw | |] eqn:Hsw;
    [|vm_compute in Hsw; discriminate..].
  apply (X8_unreadable_index_aborts unreadable t0 sw
           [ dirEntry "/index/" "index";
             indexFile "/index/" "a.nar" (30 * Minute) ]
           []
           "/index/junk.nar"
           {| fi_Name := "junk.nar"; fi_Size := 100; fi_ModTime := 30 * Minute;
              fi_IsDir := false |}).
  - exact Hsw.
  - reflexivity.
  - constructor; [intros [=]|]. constructor; [|constructor].
    intros _. split; [vm_compute; lia|]. eexists. vm_compute. reflexivity.
  - vm_compute. reflexivity.
  - vm_compute. lia.
  - vm_compute. reflexivity.
Defined.

(** ** Unreadable chunks and the budget *)


Lemma removed_effects (ps : list string) (ids : list ChunkID) :
  (∀ p, OsRemove p ∈ (OsRemove <$> ps) ++ (RemoveChunk <$> ids) ↔ p ∈ ps)
  ∧ (∀ id, RemoveChunk id ∈ (OsRemove <$> ps) ++ (RemoveChunk <$> ids)
           ↔ id ∈ ids).
Proof.
  split; intros x; rewrite elem_of_app, !list_elem_of_fmap; split.
  - intros [(p & [= ->] & Hp) | (id & [=] & _)]. done.
  - intros Hx. left. by exists x.
  - intros [(p & [=] & _) | (id & [= ->] & Hid)]. done.
  - intros Hx. right. by exists x.
Qed.



Lemma filter_offered_adds (P : chunkStat → Prop) `{!∀ s, Decision (P s)}
    (os : list Offer) :
  (∀ s, ViaAddDead s ∈ os → ¬ P s) →
  filter P (offered <$> os) = filter P (adds os).
Proof.
  induction os as [|o os IH]; intros Hdead; [done|].
  assert (filter P (offered <$> os) = filter P (adds os)) as IH'
    by (apply IH; intros s Hs; apply Hdead; by right).
  destruct o as [s|s].
  - change (adds (ViaAdd s :: os)) with (s :: adds os).
    rewrite fmap_cons. simpl. rewrite !filter_cons. by rewrite IH'.
  - change (adds (ViaAddDead s :: os)) with (adds os).
    rewrite fmap_cons. simpl. rewrite filter_cons_False; [done|].
    apply Hdead. by left.
Qed.

(** X10. A completed pass brings the store within its budget: when the
    sizes of the chunk files do not wrap around, the chunk files whose
    id the pass does not remove add up to at most [maxCacheSize]. *)
Theorem X10_pass_enforces_budget (proxy : Proxy) (now : Z) (lru : chunkLRU)
    (deadIndices : gset string) (effs : list Effect) :
  gcOnce proxy now = Completed lru deadIndices effs →
  sumSizes (offered <$> offersOf proxy (storeFiles proxy)) < 2 ^ 64 →
  (∀ id, RemoveChunk id ∈ effs ↔ id ∈ dead lru)
  ∧ sumSizes (filter (λ s, cs_id s ∉ dead lru)
                (offered <$> offersOf proxy (storeFiles proxy)))
    ≤ maxCacheSize proxy
  ∧ (1 ≤ CacheSize proxy < 2 ^ 34 →
     maxCacheSize proxy = 2 ^ 30 * CacheSize proxy - 65535 * 4096).
Proof.
  intros Hgc Hsmall.
  apply gcOnce_completed in Hgc as (sw & iw & Hsw & -> & Hiw & -> & ->).
  split_and!.
  - intros id.
    rewrite (proj2 (removed_effects _ _) id). apply elem_of_elements.
  - pose proof (walkStore_offers _ _ Hsw) as Hoffers.
    pose proof (maxCacheSize_range proxy) as Hmax.
    destruct (offerAll_stats _ _ _ (NewLRU_inv _ Hmax) Hoffers) as [_ Hvia].
    rewrite filter_offered_adds by (intros s Hs Hnot; by apply Hnot, Hvia).
    by apply survivors_fit.
  - intros Hsize. unfold maxCacheSize, maxCacheDirPortion.
    rewrite (uint64_small (2 ^ 30 * CacheSize proxy))
      by (unfold is_uint64; lia).
    apply uint64_small. unfold is_uint64. lia.
Qed.

Lemma X10_witness :
  ∃ lru deadIndices effs,
    gcOnce demo t0 = Completed lru deadIndices effs
    ∧ (∀ id, RemoveChunk id ∈ effs ↔ id ∈ dead lru)
    ∧ sumSizes (filter (λ s, cs_id s ∉ dead lru)
                  (offered <$> offersOf demo (storeFiles demo)))
      ≤ maxCacheSize demo
    ∧ (1 ≤ CacheSize demo < 2 ^ 34 →
       maxCacheSize demo = 2 ^ 30 * CacheSize demo - 65535 * 4096).
Proof.
  destruct (gcOnce demo t0) as [| | |lru deadIndices effs] eqn:Hgc;
    [vm_compute in Hgc; discriminate..|].
  exists lru, deadIndices, effs. split; [done|].
  apply (X10_pass_enforces_budget demo t0 lru deadIndices effs Hgc).
  vm_compute. reflexivity.
Defined.

Lemma offerAll_fits os : ∀ l,
  lru_inv l →
  sumSizes (live l) + sumSizes (adds os) ≤ liveSizeMax l →
  ∃ l', offerAll l os = Some l'
    ∧ live l' ≡ₚ live l ++ adds os
    ∧ (∀ id, id ∈ dead l'
             ↔ id ∈ dead l ∨ ∃ s, ViaAddDead s ∈ os ∧ cs_id s = id).
Proof.
  induction os as [|o os IH]; intros l Hinv Hfit.
  - exists l. split; [done|]. change (adds []) with (@nil chunkStat).
    split; [by rewrite (right_id_L [] (++))|].
    intros id. split; [by left|]. intros [Hid | (s & Hs & _)]; [done|].
    by apply elem_of_nil in Hs.
  - pose proof (sumSizes_nonneg (adds os)) as Hnn.
    destruct o as [s|s]; cbn [offerAll offer].
    + change (adds (ViaAdd s :: os)) with (s :: adds os) in *.
      simpl in Hfit.
      rewrite Add_within_budget by (done || lia).
      destruct (afterEvictions_0_fields l (inserted l s)) as [Hlive Hdead].
      pose proof (inserted_perm l s (inv_sorted _ Hinv)) as Hperm.
      destruct (IH (afterEvictions l (inserted l s) 0)) as (l' & Hl' & Hp & Hd).
      * eapply Add_inv; [exact Hinv|]. by apply Add_within_budget; [|lia].
      * rewrite Hlive, (sumSizes_perm _ _ Hperm). simpl. lia.
      * exists l'. split; [done|]. split.
        -- rewrite Hp, Hlive, Hperm. by rewrite <- Permutation_middle.
        -- intros id. rewrite Hd, Hdead. split.
           ++ intros [Hid | (s' & Hs' & Hid)]; [by left|].
              right. exists s'. split; [by right|done].
           ++ intros [Hid | (s' & Hs' & Hid)]; [by left|].
              apply elem_of_cons in Hs' as [[=] | Hs'].
              right. by exists s'.
    + change (adds (ViaAddDead s :: os)) with (adds os) in *.
      destruct (IH (AddDead l s)) as (l' & Hl' & Hp & Hd).
      * by apply AddDead_inv.
      * done.
      * exists l'. split; [done|]. split; [done|].
        intros id. rewrite Hd. simpl. rewrite elem_of_union, elem_of_singleton.
        split.
        -- intros [[-> | Hid] | (s' & Hs' & Hid)].
           ++ right. exists s. split; [by left|done].
           ++ by left.
           ++ right. exists s'. split; [by right|done].
        -- intros [Hid | (s' & Hs' & Hid)]; [left; by right|].
           apply elem_of_cons in Hs' as [[= ->] | Hs'].
           ++ left. by left.
           ++ right. by exists s'.
Qed.

Lemma within_budget_pass proxy sw :
  walkStore proxy = Continue sw →
  sumSizes (adds (offersOf proxy (storeFiles proxy))) ≤ maxCacheSize proxy →
  live (sw_lru sw) ≡ₚ adds (offersOf proxy (storeFiles proxy))
  ∧ ∀ id, id ∈ dead (sw_lru sw)
          ↔ ∃ s, ViaAddDead s ∈ offersOf proxy (storeFiles proxy) ∧ cs_id s = id.
Proof.
  intros Hsw Hfit.
  pose proof (walkStore_offers _ _ Hsw) as Hoffers.
  destruct (offerAll_fits (offersOf proxy (storeFiles proxy))
              (NewLRU (maxCacheSize proxy))) as (l' & Hl' & Hlive & Hd).
  - apply NewLRU_inv, maxCacheSize_range.
  - simpl. lia.
  - rewrite Hoffers in Hl'. injection Hl' as <-. split; [done|].
    intros id. rewrite Hd. simpl.
    split; [|by right]. intros [Hid | Hid]; [|done].
    by apply elem_of_empty in Hid.
Qed.

Lemma classify_dead_inv proxy ev s :
  classify proxy ev = Some (ViaAddDead s) →
  ∃ err, GetChunk proxy (cs_id s) = inl err.
Proof.
  destruct ev as [path info | path err]; [|done]. unfold classify. cbv zeta.
  destruct (_ || _ || _); [done|].
  destruct (ChunkIDFromString _) as [e | id]; [done|].
  destruct (GetChunk proxy id) as [e|] eqn:Hget; [|done].
  intros [= <-]. by exists e.
Qed.

Lemma classify_live_inv proxy ev s :
  classify proxy ev = Some (ViaAdd s) →
  ∃ b, GetChunk proxy (cs_id s) = inr b.
Proof.
  destruct ev as [path info | path err]; [|done]. unfold classify. cbv zeta.
  destruct (_ || _ || _); [done|].
  destruct (ChunkIDFromString _) as [e | id]; [done|].
  destruct (GetChunk proxy id) as [|b] eqn:Hget; [done|].
  intros [= <-]. by exists b.
Qed.

Lemma within_budget_keeps proxy sw ev s :
  walkStore proxy = Continue sw →
  sumSizes (adds (offersOf proxy (storeFiles proxy))) ≤ maxCacheSize proxy →
  ev ∈ storeFiles proxy →
  classify proxy ev = Some (ViaAdd s) →
  s ∈ live (sw_lru sw) ∧ cs_id s ∉ dead (sw_lru sw).
Proof.
  intros Hsw Hfit Hev Hcl.
  destruct (within_budget_pass _ _ Hsw Hfit) as [Hlive Hdead]. split.
  - rewrite Hlive. unfold adds, offersOf. apply list_elem_of_omap.
    exists (ViaAdd s). split; [|done]. apply list_elem_of_omap. by exists ev.
  - intros Hin. apply Hdead in Hin as (s' & Hs' & Hid).
    apply list_elem_of_omap in Hs' as (ev' & _ & Hcl').
    destruct (classify_dead_inv _ _ _ Hcl') as (err & Herr).
    destruct (classify_live_inv _ _ _ Hcl) as (b & Hb).
    rewrite Hid in Herr. congruence.
Qed.

(** X11. In a store whose readable chunk files fit the budget, a
    completed pass evicts nothing: the chunks it removes are exactly
    those of the chunk files that [GetChunk] could not read, and every
    readable chunk file stays in [live]. *)
Theorem X11_within_budget_removes_only_unreadable (proxy : Proxy) (now : Z)
    (lru : chunkLRU) (deadIndices : gset string) (effs : list Effect) :
  gcOnce proxy now = Completed lru deadIndices effs →
  sumSizes (adds (offersOf proxy (storeFiles proxy))) ≤ maxCacheSize proxy →
  (∀ id, RemoveChunk id ∈ effs
         ↔ ∃ ev s err, ev ∈ storeFiles proxy
             ∧ classify proxy ev = Some (ViaAddDead s)
             ∧ cs_id s = id
             ∧ GetChunk proxy id = inl err)
  ∧ (∀ ev s, ev ∈ storeFiles proxy →
       classify proxy ev = Some (ViaAdd s) →
       s ∈ live lru ∧ RemoveChunk (cs_id s) ∉ effs).
Proof.
  intros Hgc Hfit.
  apply gcOnce_completed in Hgc as (sw & iw & Hsw & -> & Hiw & -> & ->).
  destruct (within_budget_pass _ _ Hsw Hfit) as [_ Hdead].
  split.
  - intros id. rewrite (proj2 (removed_effects _ _) id), elem_of_elements.
    rewrite Hdead. split.
    + intros (s & Hs & Hid).
      apply list_elem_of_omap in Hs as (ev & Hev & Hcl).
      destruct (classify_dead_inv _ _ _ Hcl) as (err & Herr).
      exists ev, s, err. rewrite <- Hid. done.
    + intros (ev & s & err & Hev & Hcl & Hid & _). exists s. split; [|done].
      apply list_elem_of_omap. by exists ev.
  - intros ev s Hev Hcl.
    destruct (within_budget_keeps _ _ _ _ Hsw Hfit Hev Hcl) as [Hlive Hnot].
    split; [done|].
    by rewrite (proj2 (removed_effects _ _) (cs_id s)), elem_of_elements.
Qed.

Lemma X11_witness :
  ∃ lru deadIndices effs,
    gcOnce corrupt t0 = Completed lru deadIndices effs
    ∧ (∀ id, RemoveChunk id ∈ effs
             ↔ ∃ ev s err, ev ∈ storeFiles corrupt
                 ∧ classify corrupt ev = Some (ViaAddDead s)
                 ∧ cs_id s = id
                 ∧ GetChunk corrupt id = inl err)
    ∧ (∀ ev s, ev ∈ storeFiles corrupt →
         classify corrupt ev = Some (ViaAdd s) →
         s ∈ live lru ∧ RemoveChunk (cs_id s) ∉ effs).
Proof.
  destruct (gcOnce corrupt t0) as [| | |lru deadIndices effs] eqn:Hgc;
    [vm_compute in Hgc; discriminate..|].
  exists lru, deadIndices, effs. split; [done|].
  apply (X11_within_budget_removes_only_unreadable corrupt t0 lru deadIndices
           effs Hgc).
  vm_compute. discriminate.
Defined.

(** X12. With [CacheSize] zero the subtraction in [maxCacheSize] wraps
    around: the budget is [2^64 - 0xffff * 4096] bytes, and a completed
    pass over readable chunk files below that sum evicts none of them. *)
Theorem X12_zero_cache_size_never_evicts (proxy : Proxy) (now : Z)
    (lru : chunkLRU) (deadIndices : gset string) (effs : list Effect) :
  CacheSize proxy = 0 →
  gcOnce proxy now = Completed lru deadIndices effs →
  sumSizes (adds (offersOf proxy (storeFiles proxy)))
  ≤ 2 ^ 64 - 65535 * 4096 →
  liveSizeMax lru = 2 ^ 64 - 65535 * 4096
  ∧ (∀ ev s, ev ∈ storeFiles proxy →
       classify proxy ev = Some (ViaAdd s) →
       s ∈ live lru ∧ RemoveChunk (cs_id s) ∉ effs).
Proof.
  intros Hzero Hgc Hfit.
  assert (maxCacheSize proxy = 2 ^ 64 - 65535 * 4096) as Hmax
    by (unfold maxCacheSize; rewrite Hzero; vm_compute; reflexivity).
  rewrite <- Hmax in Hfit.
  apply gcOnce_completed in Hgc as (sw & iw & Hsw & -> & Hiw & -> & ->).
  split.
  - rewrite <- Hmax.
    apply (offerAll_max _ _ _ (NewLRU_inv _ (maxCacheSize_range proxy))
             (walkStore_offers _ _ Hsw)).
  - intros ev s Hev Hcl.
    destruct (within_budget_keeps _ _ _ _ Hsw Hfit Hev Hcl) as [Hlive Hnot].
    split; [done|].
    by rewrite (proj2 (removed_effects _ _) (cs_id s)), elem_of_elements.
Qed.

Lemma X12_witness :
  ∃ lru deadIndices effs,
    gcOnce unbounded t0 = Completed lru deadIndices effs
    ∧ liveSizeMax lru = 2 ^ 64 - 65535 * 4096
    ∧ (∀ ev s, ev ∈ storeFiles unbounded →
         classify unbounded ev = Some (ViaAdd s) →
         s ∈ live lru ∧ RemoveChunk (cs_id s) ∉ effs).
Proof.
  destruct (gcOnce unbounded t0) as [| | |lru deadIndices effs] eqn:Hgc;
    [vm_compute in Hgc; discriminate..|].
  exists lru, deadIndices, effs. split; [done|].
  apply (X12_zero_cache_size_never_evicts unbounded t0 lru deadIndices effs).
  - reflexivity.
  - exact Hgc.
  - vm_compute. discriminate.
Defined.

(** ** Panics *)

Lemma walkIndicesFn_panic proxy lru t st ev :
  walkIndicesFn proxy lru t st ev = Panic →
  ∃ path info, ev = Visit path info
    ∧ (String.length path < String.length (indexPath proxy))%nat.
Proof.
  destruct ev as [path info | path err]; [|done]. simpl.
  destruct (fi_IsDir info); [done|].
  destruct (negb _); [done|].
  destruct (bool_decide _) eqn:Hlen.
  - intros _. exists path, info. split; [done|].
    by apply bool_decide_eq_true in Hlen.
  - by destruct (GetIndex proxy (relName proxy path)).
Qed.

Lemma Walk_indices_no_panic proxy lru t evs :
  Forall (λ ev, (String.length (indexPath proxy) ≤ String.length (ev_path ev))%nat)
    evs →
  ∀ st, Walk (walkIndicesFn proxy lru t) st evs ≠ Panic.
Proof.
  induction 1 as [|ev evs Hev _ IH]; intros st; simpl; [done|].
  destruct (walkIndicesFn proxy lru t st ev) as [st1 | |] eqn:Hstep;
    [apply IH|done|].
  apply walkIndicesFn_panic in Hstep as (path & info & -> & Hlen).
  simpl in Hev. lia.
Qed.

(** X13. A pass never panics: the eviction loop of [Add] never reads the
    last element of an empty [live], and the slice [path[len(indices.Path):]]
    is within bounds for every path that is at least as long as the index
    directory's, as the paths of a walk from that directory are. *)
Theorem X13_pass_never_panics (proxy : Proxy) (now : Z) :
  Forall (λ ev, (String.length (indexPath proxy) ≤ String.length (ev_path ev))%nat)
    (indexFiles proxy) →
  gcOnce proxy now ≠ Panicked.
Proof.
  intros Hlen. unfold gcOnce.
  destruct (walkStore proxy) as [sw | |] eqn:Hsw; [|done|].
  - destruct (walkIndices proxy (sw_lru sw) now) as [iw | |] eqn:Hiw;
      [done|done|].
    exfalso. by apply (Walk_indices_no_panic _ _ _ _ Hlen _ Hiw).
  - exfalso. revert Hsw. apply Walk_store_no_panic.
    apply NewLRU_inv, maxCacheSize_range.
Qed.

Lemma X13_witness : gcOnce demo t0 ≠ Panicked.
Proof.
  apply (X13_pass_never_panics demo t0).
  repeat constructor.
Defined.

(** ** The loop of [gc] *)





(** ** The names of chunk files *)

Lemma chars_app a b : chars (a +:+ b) = chars a ++ chars b.
Proof. induction a as [|c a IH]; [done|]. simpl. by rewrite IH. Qed.

Lemma length_append a b :
  String.length (a +:+ b) = (String.length a + String.length b)%nat.
Proof. induction a as [|c a IH]; [done|]. simpl. by rewrite IH. Qed.

Lemma substring_append a b :
  String.substring 0 (String.length a) (a +:+ b) = a.
Proof.
  induction a as [|c a IH]; [by destruct b|]. simpl. by rewrite IH.
Qed.

Lemma Ext_append_ext s : Ext (s +:+ CompressedChunkExt) = CompressedChunkExt.
Proof.
  unfold Ext. rewrite chars_app, rev_app_distr. reflexivity.
Qed.

Lemma hexval_hexdigit n : hexval (hexdigit n) = Some (n mod 16)%N.
Proof.
  unfold hexdigit.
  assert (N.to_nat (n mod 16) < 16)%nat as Hlt.
  { pose proof (N.mod_upper_bound n 16). lia. }
  rewrite <- (N2Nat.id (n mod 16)) at 2.
  remember (N.to_nat (n mod 16)) as k eqn:Hk. clear Hk.
  do 16 (destruct k as [|k]; [vm_compute; reflexivity|]).
  lia.
Qed.

Lemma hexDecode_hexEncode b :
  Forall (λ v, (v < 256)%N) b → hexDecode (hexEncode b) = Some b.
Proof.
  induction 1 as [|v b Hv _ IH]; [done|].
  cbn [hexEncode hexDecode]. rewrite !hexval_hexdigit, IH.
  f_equal. f_equal.
  assert (v / 16 < 16)%N as Hq by (apply N.Div0.div_lt_upper_bound; lia).
  rewrite (N.mod_small (v / 16) 16) by done.
  symmetry. apply N.div_mod. lia.
Qed.

Lemma ChunkIDFromString_String id :
  length id = 32%nat → Forall (λ v, (v < 256)%N) id →
  ChunkIDFromString (String id) = inr id.
Proof.
  intros Hlen Hbytes. unfold ChunkIDFromString, String.
  rewrite String.list_ascii_of_string_of_list_ascii, hexDecode_hexEncode by done.
  by rewrite decide_True.
Qed.

(** X15. The chunk walk reads back the names the chunk store writes: for
    a chunk id of 32 bytes, the file named [id.String()] with the chunk
    extension has that extension, its stem parses to the same id, and the
    callback offers the chunk under that id, to [AddDead] when [GetChunk]
    fails and to [Add] otherwise. *)
Theorem X15_chunk_file_name_round_trip (proxy : Proxy) (st : StoreWalk)
    (path : string) (info : FileInfo) (id : ChunkID) :
  length id = 32%nat →
  Forall (λ v, (v < 256)%N) id →
  fi_Name info = fileName id →
  fi_IsDir info = false →
  Ext (fileName id) = CompressedChunkExt
  ∧ ChunkIDFromString (String id) = inr id
  ∧ walkStoreFn proxy st (Visit path info)
    = (let stat := {| cs_id := id; cs_size := fi_Size info;
                      cs_mtime := fi_ModTime info |} in
       match GetChunk proxy id with
       | inl _ =>
           Continue {| sw_lru := AddDead (sw_lru st) stat;
                       sw_chunkDirs := sw_chunkDirs st |}
       | inr _ =>
           match Add (sw_lru st) stat with
           | Some lru' =>
               Continue {| sw_lru := lru'; sw_chunkDirs := sw_chunkDirs st |}
           | None => Panic
           end
       end).
Proof.
  intros Hlen Hbytes Hname Hdir.
  pose proof (Ext_append_ext (String id)) as Hext. fold (fileName id) in Hext.
  pose proof (ChunkIDFromString_String id Hlen Hbytes) as Hid.
  split_and!; [done..|].
  unfold walkStoreFn. cbv zeta. rewrite Hdir, Hname, fileName_not_tmp, Hext.
  rewrite String.eqb_refl. cbn [negb].
  assert (String.substring 0
            (String.length (fileName id) - String.length CompressedChunkExt)
            (fileName id) = String id) as ->.
  { unfold fileName. rewrite length_append, Nat.add_sub.
    apply substring_append. }
  by rewrite Hid.
Qed.

Lemma X15_witness :
  Ext (fileName (idOf 2)) = CompressedChunkExt
  ∧ ChunkIDFromString (String (idOf 2)) = inr (idOf 2)
  ∧ classify demo (chunkFile "/store" (idOf 2) 500000000 (20 * Minute))
    = Some (ViaAdd {| cs_id := idOf 2; cs_size := 500000000;
                      cs_mtime := 20 * Minute |}).
Proof.
  destruct (X15_chunk_file_name_round_trip demo
              {| sw_lru := NewLRU (maxCacheSize demo); sw_chunkDirs := 0 |}
              (nameFromID "/store" (idOf 2))
              {| fi_Name := fileName (idOf 2); fi_Size := 500000000;
                 fi_ModTime := 20 * Minute; fi_IsDir := false |}
              (idOf 2))
    as (Hext & Hid & _).
  - reflexivity.
  - repeat constructor.
  - reflexivity.
  - reflexivity.
  - split; [exact Hext|]. split; [exact Hid|]. vm_compute. reflexivity.
Defined.

(** ** The counters of the walks *)

Lemma int64_add_l a b : int64 (int64 a + b) = int64 (a + b).
Proof.
  unfold int64. f_equal.
  replace ((a + 2 ^ 63) mod 2 ^ 64 - 2 ^ 63 + b + 2 ^ 63)
    with ((a + 2 ^ 63) mod 2 ^ 64 + b) by lia.
  rewrite Zplus_mod_idemp_l. f_equal. lia.
Qed.

Lemma int64_idemp a : int64 (int64 a) = int64 a.
Proof.
  unfold int64. f_equal.
  replace ((a + 2 ^ 63) mod 2 ^ 64 - 2 ^ 63 + 2 ^ 63)
    with ((a + 2 ^ 63) mod 2 ^ 64) by lia.
  apply Z.mod_mod. lia.
Qed.

Lemma walkStoreFn_chunkDirs proxy st ev st' :
  walkStoreFn proxy st ev = Continue st' →
  sw_chunkDirs st'
  = if isDirectory ev then int64 (sw_chunkDirs st + 1) else sw_chunkDirs st.
Proof.
  destruct ev as [path info | path err]; simpl.
  - destruct (fi_IsDir info); [by intros [= <-]|].
    destruct (HasPrefix _ _); [by intros [= <-]|].
    destruct (negb _); [by intros [= <-]|].
    destruct (ChunkIDFromString _) as [e | id]; [done|].
    destruct (GetChunk proxy id); [by intros [= <-]|].
    destruct (Add _ _); [by intros [= <-]|done].
  - destruct (is_ErrNotExist err); [by intros [= <-]|done].
Qed.

Lemma Walk_store_chunkDirs proxy evs : ∀ st st',
  Walk (walkStoreFn proxy) st evs = Continue st' →
  int64 (sw_chunkDirs st) = sw_chunkDirs st →
  sw_chunkDirs st'
  = int64 (sw_chunkDirs st
           + Z.of_nat (length (filter (λ ev, isDirectory ev = true) evs))).
Proof.
  induction evs as [|ev evs IH]; intros st st'; simpl.
  - intros [= <-] Hst. by rewrite Z.add_0_r.
  - destruct (walkStoreFn proxy st ev) as [st1 | |] eqn:Hstep; [|done|done].
    intros Hwalk Hst. apply walkStoreFn_chunkDirs in Hstep.
    rewrite filter_cons. destruct (isDirectory ev) eqn:Hdir.
    + rewrite decide_True by done.
      rewrite (IH _ _ Hwalk) by (rewrite Hstep; apply int64_idemp).
      rewrite Hstep, int64_add_l. f_equal. simpl length. lia.
    + rewrite decide_False by done.
      rewrite (IH _ _ Hwalk) by (by rewrite Hstep). by rewrite Hstep.
Qed.

Lemma walkIndicesFn_indicesCount proxy lru t st ev st' :
  walkIndicesFn proxy lru t st ev = Continue st' →
  iw_indicesCount st'
  = if examined t ev then int64 (iw_indicesCount st + 1)
    else iw_indicesCount st.
Proof.
  intros Hstep.
  pose proof (walkIndicesFn_continue _ _ _ _ _ _ Hstep) as Hev.
  destruct ev as [path info | path err]; [|done].
  destruct (examined t (Visit path info)) eqn:Hex.
  - destruct Hev as (Hlen & index & Hget).
    rewrite (walkIndicesFn_examined _ _ _ _ _ _ index) in Hstep by done.
    by injection Hstep as <-.
  - rewrite walkIndicesFn_skipped in Hstep by done. by injection Hstep as <-.
Qed.

Lemma Walk_indices_indicesCount proxy lru t evs : ∀ st st',
  Walk (walkIndicesFn proxy lru t) st evs = Continue st' →
  int64 (iw_indicesCount st) = iw_indicesCount st →
  iw_indicesCount st'
  = int64 (iw_indicesCount st
           + Z.of_nat (length (filter (λ ev, examined t ev = true) evs))).
Proof.
  induction evs as [|ev evs IH]; intros st st'; simpl.
  - intros [= <-] Hst. by rewrite Z.add_0_r.
  - destruct (walkIndicesFn proxy lru t st ev) as [st1 | |] eqn:Hstep;
      [|done|done].
    intros Hwalk Hst. apply walkIndicesFn_indicesCount in Hstep.
    rewrite filter_cons. destruct (examined t ev) eqn:Hex.
    + rewrite decide_True by done.
      rewrite (IH _ _ Hwalk) by (rewrite Hstep; apply int64_idemp).
      rewrite Hstep, int64_add_l. f_equal. simpl length. lia.
    + rewrite decide_False by done.
      rewrite (IH _ _ Hwalk) by (by rewrite Hstep). by rewrite Hstep.
Qed.

(** X16. The counters of the walks are exact: when the chunk walk ends
    without error [chunkDirs] is the number of directories it met, the
    base directory included, and when the index walk ends without error
    [indicesCount] is the number of index files it examined, both as
    [int64]. *)
Theorem X16_walk_counters (proxy : Proxy) (now : Z) (sw : StoreWalk)
    (iw : IndexWalk) :
  walkStore proxy = Continue sw →
  walkIndices proxy (sw_lru sw) now = Continue iw →
  sw_chunkDirs sw
  = int64 (Z.of_nat (length (filter (λ ev, isDirectory ev = true)
                                 (storeFiles proxy))))
  ∧ iw_indicesCount iw
    = int64 (Z.of_nat (length (filter (λ ev, examined (now + 10 * Minute) ev = true)
                                 (indexFiles proxy)))).
Proof.
  intros Hsw Hiw. split.
  - by rewrite (Walk_store_chunkDirs _ _ _ _ Hsw).
  - by rewrite (Walk_indices_indicesCount _ _ _ _ _ _ Hiw).
Qed.

Lemma X16_witness :
  ∃ sw iw,
    walkStore demo = Continue sw
    ∧ walkIndices demo (sw_lru sw) t0 = Continue iw
    ∧ sw_chunkDirs sw = 2
    ∧ iw_indicesCount iw = 3.
Proof.
  destruct (walkStore demo) as [sw | |] eqn:Hsw;
    [|vm_compute in Hsw; discriminate..].
  destruct (walkIndices demo (sw_lru sw) t0) as [iw | |] eqn:Hiw;
    [|exfalso; vm_compute in Hsw; injection Hsw as <-;
      vm_compute in Hiw; discriminate..].
  exists sw, iw. split; [reflexivity|]. split; [exact Hiw|].
  destruct (X16_walk_counters demo t0 sw iw Hsw Hiw) as [Hdirs Hcount].
  split; [exact Hdirs|exact Hcount].
Defined.
